(** * OpenAeroVTOL [pid.c]: a shallow embedding of the PID core

    The two entry points of [OpenAeroVTOL/src/pid.c] are embedded as pure
    state transformers:

    - [Sensor_PID]    (run every control loop: noise estimate, gyro low-pass
                       filter, stick-rate mapping, gyro and Z-acc I-terms,
                       gyro accumulation);
    - [Calculate_PID] (run before PWM output: averaging, P/I terms per
                       profile and axis, leveling terms, Z-acc PI value).

    Integers live in [Z] with the two's-complement wrap-around of their C
    type written out.  The program is built for AVR ([<avr/io.h>],
    [<avr/pgmspace.h>]): [int] is 16 bits wide and [float]/[double] are IEEE
    binary32, modelled with the Standard Library's [SpecFloat] at precision
    24 and maximal exponent 128 (round to nearest, ties to even). *)

From Stdlib Require Import ZArith List Bool Lia.
From Stdlib Require Import Floats.SpecFloat.
Import ListNotations.
Local Open Scope Z_scope.

(** ** Machine integers *)

Module CInt.

(** Signed two's-complement reading of the low [w] bits of [x]. *)
Definition wrap (w x : Z) : Z :=
  (x + 2 ^ (w - 1)) mod 2 ^ w - 2 ^ (w - 1).

(** [x] is representable as a signed [w]-bit integer. *)
Definition fits (w x : Z) : Prop := - 2 ^ (w - 1) <= x < 2 ^ (w - 1).

Definition fitsb (w x : Z) : bool :=
  (- 2 ^ (w - 1) <=? x) && (x <? 2 ^ (w - 1)).

Definition int8 : Z -> Z := wrap 8.
Definition int16 : Z -> Z := wrap 16.
Definition int32 : Z -> Z := wrap 32.

(** The type [int] of the AVR target: operands narrower than [int] are
    promoted to it, and arithmetic on them is carried out in 16 bits. *)
Definition cint : Z -> Z := wrap 16.

Definition uint32 (x : Z) : Z := x mod 2 ^ 32.

(** [abs] of <stdlib.h>: [int abs(int)]. *)
Definition c_abs (x : Z) : Z := cint (Z.abs x).

End CInt.
Import CInt.

(** ** binary32 floating point *)

Module F32.

Definition prec : Z := 24.
Definition emax : Z := 128.

Definition float : Type := spec_float.

Definition add : float -> float -> float := SFadd prec emax.
Definition sub : float -> float -> float := SFsub prec emax.
Definition mul : float -> float -> float := SFmul prec emax.
Definition div : float -> float -> float := SFdiv prec emax.
Definition opp : float -> float := SFopp.
Definition fabs : float -> float := SFabs.

(** [a < b]; false as soon as one side is a NaN. *)
Definition ltb : float -> float -> bool := SFltb.

Definition valid (x : float) : bool := valid_binary prec emax x.

(** Conversion of an integer to [float]. *)
Definition of_Z (z : Z) : float := binary_normalize prec emax z 0 false.

(** Truncation toward zero; undefined on NaN and the infinities. *)
Definition trunc (f : float) : option Z :=
  match f with
  | S754_zero _ => Some 0
  | S754_finite s m e =>
      let a := Z.shiftl (Zpos m) e in Some (if s then - a else a)
  | S754_infinity _ | S754_nan => None
  end.

(** A normal number: the mantissa uses all [prec] bits. *)
Definition normal (x : float) : bool :=
  match x with
  | S754_finite _ m _ => Zpos (digits2_pos m) =? prec
  | _ => false
  end.

(** [M_PI] of <math.h>, rounded to binary32 (0x40490FDB). *)
Definition M_PI : float := S754_finite false 13176795 (-22).

End F32.
Import F32.

(** ** Array indices *)

Inductive Profile : Type := P1 | P2.

Inductive Axis : Type := ROLL | PITCH | YAW.

(** Index of the I-term tables, which have [NUMBEROFAXIS + 1] columns. *)
Inductive IAxis : Type := GYRO (a : Axis) | ZED.

Definition Profile_eqb (p q : Profile) : bool :=
  match p, q with P1, P1 | P2, P2 => true | _, _ => false end.

Definition Axis_eqb (a b : Axis) : bool :=
  match a, b with
  | ROLL, ROLL | PITCH, PITCH | YAW, YAW => true
  | _, _ => false
  end.

Definition upd1 {A : Type} (f : Axis -> A) (a : Axis) (v : A) : Axis -> A :=
  fun a' => if Axis_eqb a' a then v else f a'.

Definition updP {A : Type} (f : Profile -> A) (p : Profile) (v : A)
  : Profile -> A :=
  fun p' => if Profile_eqb p' p then v else f p'.

Definition upd2 {A : Type} (f : Profile -> Axis -> A) (p : Profile) (a : Axis)
    (v : A) : Profile -> Axis -> A :=
  fun p' a' => if Profile_eqb p' p && Axis_eqb a' a then v else f p' a'.

Definition axes : list Axis := [ROLL; PITCH; YAW].
Definition profiles : list Profile := [P1; P2].

(** ** Configuration, inputs and state *)

(** The declarations of [Config], [RCinputs], [gyroADC], [gyroADC_raw],
    [angle], [accVertf] and [LoopCount] are in headers; their types are read
    off the way this file uses them: rates and gains are copied into
    [int8_t] tables and trims into an [int16_t] table, [gyroADC] receives
    [int16_t] casts, the I-term limits are compared with and assigned to
    [int32_t] variables, and [LoopCount] is narrower than 32 bits, so that
    the averaging division is a signed 32-bit one. *)

(** Per-profile settings read by this file ([Config.FlightMode[p]]). *)
Record flight_control : Type := {
  Roll_Rate : Z;  Pitch_Rate : Z;  Yaw_Rate : Z;
  Roll_P_mult : Z;  Pitch_P_mult : Z;  Yaw_P_mult : Z;
  Roll_I_mult : Z;  Pitch_I_mult : Z;  Yaw_I_mult : Z;  A_Zed_I_mult : Z;
  A_Roll_P_mult : Z;  A_Pitch_P_mult : Z;  A_Zed_P_mult : Z;
  Yaw_trim : Z
}.

Record CONFIG_STRUCT : Type := {
  FlightMode : Profile -> flight_control;
  Vibration : Z;
  Servo_rate : Z;
  Gyro_LPF : Z;
  AccVertFilter : Z;
  Raw_I_Constrain : Profile -> IAxis -> Z;
  Raw_I_Limits : Profile -> IAxis -> Z;
  Rolltrim : Profile -> Z;
  Pitchtrim : Profile -> Z
}.

(** Data owned by other modules and only read here. *)
Record Inputs : Type := {
  RC_AILERON : Z;  RC_ELEVATOR : Z;  RC_RUDDER : Z;
  gyroADC_raw : Axis -> Z;
  accVertf : float;
  angle : Axis -> Z;
  LoopCount : Z
}.

(** The globals of [pid.c], and [gyroADC] of the gyro driver, which both
    entry points overwrite in place.  [GyroDTerm] is declared in [pid.c] but
    never read or written, and is left out. *)
Record State : Type := {
  PID_Gyros : Profile -> Axis -> Z;
  PID_ACCs : Profile -> Axis -> Z;
  IntegralGyro : Profile -> Axis -> Z;
  IntegralAccVertf : Profile -> float;
  gyroSmooth : Axis -> float;
  PID_AvgGyro : Axis -> Z;
  GyroAvgNoise : float;
  HPF_V : float;
  HPF_T : float;
  HPF_I : float;
  fsample : float;
  gyroADC : Axis -> Z
}.

Definition set_PID_Gyros (s : State) (p : Profile) (a : Axis) (v : Z) : State :=
  {| PID_Gyros := upd2 (PID_Gyros s) p a v; PID_ACCs := PID_ACCs s;
     IntegralGyro := IntegralGyro s; IntegralAccVertf := IntegralAccVertf s;
     gyroSmooth := gyroSmooth s; PID_AvgGyro := PID_AvgGyro s;
     GyroAvgNoise := GyroAvgNoise s; HPF_V := HPF_V s; HPF_T := HPF_T s;
     HPF_I := HPF_I s; fsample := fsample s; gyroADC := gyroADC s |}.

Definition set_PID_ACCs (s : State) (p : Profile) (a : Axis) (v : Z) : State :=
  {| PID_Gyros := PID_Gyros s; PID_ACCs := upd2 (PID_ACCs s) p a v;
     IntegralGyro := IntegralGyro s; IntegralAccVertf := IntegralAccVertf s;
     gyroSmooth := gyroSmooth s; PID_AvgGyro := PID_AvgGyro s;
     GyroAvgNoise := GyroAvgNoise s; HPF_V := HPF_V s; HPF_T := HPF_T s;
     HPF_I := HPF_I s; fsample := fsample s; gyroADC := gyroADC s |}.

Definition set_IntegralGyro (s : State) (p : Profile) (a : Axis) (v : Z)
  : State :=
  {| PID_Gyros := PID_Gyros s; PID_ACCs := PID_ACCs s;
     IntegralGyro := upd2 (IntegralGyro s) p a v;
     IntegralAccVertf := IntegralAccVertf s;
     gyroSmooth := gyroSmooth s; PID_AvgGyro := PID_AvgGyro s;
     GyroAvgNoise := GyroAvgNoise s; HPF_V := HPF_V s; HPF_T := HPF_T s;
     HPF_I := HPF_I s; fsample := fsample s; gyroADC := gyroADC s |}.

Definition set_IntegralAccVertf (s : State) (p : Profile) (v : float) : State :=
  {| PID_Gyros := PID_Gyros s; PID_ACCs := PID_ACCs s;
     IntegralGyro := IntegralGyro s;
     IntegralAccVertf := updP (IntegralAccVertf s) p v;
     gyroSmooth := gyroSmooth s; PID_AvgGyro := PID_AvgGyro s;
     GyroAvgNoise := GyroAvgNoise s; HPF_V := HPF_V s; HPF_T := HPF_T s;
     HPF_I := HPF_I s; fsample := fsample s; gyroADC := gyroADC s |}.

Definition set_gyroSmooth (s : State) (a : Axis) (v : float) : State :=
  {| PID_Gyros := PID_Gyros s; PID_ACCs := PID_ACCs s;
     IntegralGyro := IntegralGyro s; IntegralAccVertf := IntegralAccVertf s;
     gyroSmooth := upd1 (gyroSmooth s) a v; PID_AvgGyro := PID_AvgGyro s;
     GyroAvgNoise := GyroAvgNoise s; HPF_V := HPF_V s; HPF_T := HPF_T s;
     HPF_I := HPF_I s; fsample := fsample s; gyroADC := gyroADC s |}.

Definition set_PID_AvgGyro (s : State) (a : Axis) (v : Z) : State :=
  {| PID_Gyros := PID_Gyros s; PID_ACCs := PID_ACCs s;
     IntegralGyro := IntegralGyro s; IntegralAccVertf := IntegralAccVertf s;
     gyroSmooth := gyroSmooth s; PID_AvgGyro := upd1 (PID_AvgGyro s) a v;
     GyroAvgNoise := GyroAvgNoise s; HPF_V := HPF_V s; HPF_T := HPF_T s;
     HPF_I := HPF_I s; fsample := fsample s; gyroADC := gyroADC s |}.

Definition set_gyroADC (s : State) (a : Axis) (v : Z) : State :=
  {| PID_Gyros := PID_Gyros s; PID_ACCs := PID_ACCs s;
     IntegralGyro := IntegralGyro s; IntegralAccVertf := IntegralAccVertf s;
     gyroSmooth := gyroSmooth s; PID_AvgGyro := PID_AvgGyro s;
     GyroAvgNoise := GyroAvgNoise s; HPF_V := HPF_V s; HPF_T := HPF_T s;
     HPF_I := HPF_I s; fsample := fsample s;
     gyroADC := upd1 (gyroADC s) a v |}.

(** The five scalars written by the noise estimator. *)
Definition set_noise (s : State) (t v i fs n : float) : State :=
  {| PID_Gyros := PID_Gyros s; PID_ACCs := PID_ACCs s;
     IntegralGyro := IntegralGyro s; IntegralAccVertf := IntegralAccVertf s;
     gyroSmooth := gyroSmooth s; PID_AvgGyro := PID_AvgGyro s;
     GyroAvgNoise := n; HPF_V := v; HPF_T := t;
     HPF_I := i; fsample := fs; gyroADC := gyroADC s |}.

(** C start-up state: every global is zero. *)
Definition init_state : State :=
  {| PID_Gyros := fun _ _ => 0; PID_ACCs := fun _ _ => 0;
     IntegralGyro := fun _ _ => 0;
     IntegralAccVertf := fun _ => S754_zero false;
     gyroSmooth := fun _ => S754_zero false; PID_AvgGyro := fun _ => 0;
     GyroAvgNoise := S754_zero false; HPF_V := S754_zero false;
     HPF_T := S754_zero false; HPF_I := S754_zero false;
     fsample := S754_zero false; gyroADC := fun _ => 0 |}.

(** ** What the headers and the target leave open

    [compiledefs.h], [io_cfg.h] and the other headers are not part of the
    file: the enumerators [ON], [FAST], [NOFILTER] and the two PROGMEM
    coefficient tables are taken as given.  Two operations have no result
    fixed by the source: a float-to-integer conversion whose operand is a NaN
    or lies outside the destination type, and an integer division by zero.
    On the target both deliver some value and execution goes on; that value
    is [fix_undef] resp. [div_undef], and every theorem below holds whatever
    they are. *)
Record Target : Type := {
  ON : Z;
  FAST : Z;
  NOFILTER : Z;
  LPF_lookup : Z -> float;
  LPF_lookup_HS : Z -> float;
  fix_undef : float -> Z;
  div_undef : Z -> Z
}.

(** ** Constants of [pid.c] *)

Definition PID_SCALE : Z := 6.
Definition STANDARDLOOP : float := of_Z 3571.

(** [HPF_O = (2 * M_PI * HPF_FC / SAMPLE_RATE)], [HPF_C = (HPF_Q / HPF_O)] and
    [HPF_L = (1 / HPF_Q / HPF_O)], with [HPF_FC = 20], [SAMPLE_RATE = 500],
    [HPF_Q = 1]; in the last one [1 / HPF_Q] is an integer division. *)
Definition HPF_O : float :=
  div (mul (mul (of_Z 2) M_PI) (of_Z 20)) (of_Z 500).
Definition HPF_C : float := div (of_Z 1) HPF_O.
Definition HPF_L : float := div (of_Z (Z.quot 1 1)) HPF_O.

(** ** Stick-rate mapper (pid.c, lines 149-165) *)

(** [RCinputsAxis]: the roll stick is negated. *)
Definition RCinputsAxis (inp : Inputs) (a : Axis) : Z :=
  match a with
  | ROLL => int16 (cint (- RC_AILERON inp))
  | PITCH => int16 (RC_ELEVATOR inp)
  | YAW => int16 (RC_RUDDER inp)
  end.

Definition Stick_rates (cfg : CONFIG_STRUCT) (p : Profile) (a : Axis) : Z :=
  let fm := FlightMode cfg p in
  int8 match a with
       | ROLL => Roll_Rate fm
       | PITCH => Pitch_Rate fm
       | YAW => Yaw_Rate fm
       end.

(** [stick_P = rc >> (4 - (rate - 2))] when [rate <= 6], else
    [rc << (rate - 6)]; the result is stored in an [int16_t]. *)
Definition stick_rate (rate rc : Z) : Z :=
  if rate <=? 6
  then int16 (Z.shiftr rc (4 - (rate - 2)))
  else int16 (Z.shiftl rc (rate - 6)).

(** ** Clamps *)

(** Lines 235-243: two independent [if]s. *)
Definition constrain_I (c i : Z) : Z :=
  let i1 := if c <? i then int32 c else i in
  if i1 <? int32 (- c) then int32 (- c) else i1.

(** Lines 430-447: [if] / [else if]. *)
Definition limit_I (l i : Z) : Z :=
  if l <? i then int32 l
  else if i <? int32 (- l) then int32 (- l)
  else i.

(** Lines 490-497: two independent [if]s. *)
Definition limit_acc_I (l i : Z) : Z :=
  let i1 := if l <? i then int32 l else i in
  if i1 <? int32 (- l) then int32 (- l) else i1.

(** Lines 324-334: the limit is promoted to [float] first. *)
Definition constrain_vert (c : Z) (x : float) : float :=
  let tempf1 := of_Z c in
  let x1 := if ltb tempf1 x then tempf1 else x in
  if ltb x1 (opp tempf1) then opp tempf1 else x1.

(** ** Z-acc I-term decay (lines 311-316) *)

Definition decay_factor (cfg : CONFIG_STRUCT) : float :=
  sub (of_Z 1) (div (of_Z (AccVertFilter cfg)) (of_Z 10000)).

Definition vert_decay (cfg : CONFIG_STRUCT) (x : float) : float :=
  mul x (decay_factor cfg).

(** ** Gain tables of [Calculate_PID] (lines 351-374) *)

Definition P_gain (cfg : CONFIG_STRUCT) (p : Profile) (a : Axis) : Z :=
  let fm := FlightMode cfg p in
  int8 match a with
       | ROLL => Roll_P_mult fm
       | PITCH => Pitch_P_mult fm
       | YAW => Yaw_P_mult fm
       end.

Definition I_gain (cfg : CONFIG_STRUCT) (p : Profile) (a : IAxis) : Z :=
  let fm := FlightMode cfg p in
  int8 match a with
       | GYRO ROLL => Roll_I_mult fm
       | GYRO PITCH => Pitch_I_mult fm
       | GYRO YAW => Yaw_I_mult fm
       | ZED => A_Zed_I_mult fm
       end.

Definition L_gain (cfg : CONFIG_STRUCT) (p : Profile) (a : Axis) : Z :=
  let fm := FlightMode cfg p in
  int8 match a with
       | ROLL => A_Roll_P_mult fm
       | PITCH => A_Pitch_P_mult fm
       | YAW => A_Zed_P_mult fm
       end.

(** [L_trim] has two columns only; the [YAW] entry is never read. *)
Definition L_trim (cfg : CONFIG_STRUCT) (p : Profile) (a : Axis) : Z :=
  int16 match a with
        | ROLL => Rolltrim cfg p
        | PITCH => Pitchtrim cfg p
        | YAW => 0
        end.

(** ** Gyro P- and I-terms (lines 393-447) *)

(** Yaw trim bias, zero on the other axes. *)
Definition gyro_bias (cfg : CONFIG_STRUCT) (p : Profile) (a : Axis) : Z :=
  match a with
  | YAW => int32 (cint (Z.shiftl (Yaw_trim (FlightMode cfg p)) 6))
  | _ => 0
  end.

(** [PID_gyro_temp += gyroADC[axis] * P_gain[p][axis]]: both factors are
    promoted to [int], so the product is a 16-bit one; only the sum and the
    multiplication by [(int32_t)3] are done in 32 bits. *)
Definition PID_gyro_P (cfg : CONFIG_STRUCT) (p : Profile) (a : Axis) (g : Z)
  : Z :=
  let t := int32 (gyro_bias cfg p a + cint (g * P_gain cfg p a)) in
  int32 (t * 3).

(** [IntegralGyro[p][axis] * I_gain[p][axis]], before [>> 5]. *)
Definition gyro_I_product (cfg : CONFIG_STRUCT) (p : Profile) (a : Axis)
    (i : Z) : Z :=
  int32 (i * I_gain cfg p (GYRO a)).

Definition PID_Gyro_I_actual (cfg : CONFIG_STRUCT) (p : Profile) (a : Axis)
    (i : Z) : Z :=
  limit_I (Raw_I_Limits cfg p (GYRO a)) (Z.shiftr (gyro_I_product cfg p a i) 5).

Definition PID_gyro_out (cfg : CONFIG_STRUCT) (p : Profile) (a : Axis)
    (g i : Z) : Z :=
  int16 (Z.shiftr (int32 (PID_gyro_P cfg p a g + PID_Gyro_I_actual cfg p a i))
                  PID_SCALE).

Section PID.

Variable tg : Target.

(** [(intN_t) f] *)
Definition to_int (w : Z) (f : float) : Z :=
  match trunc f with
  | Some z => if fitsb w z then z else wrap w (fix_undef tg f)
  | None => wrap w (fix_undef tg f)
  end.

(** [a / b] on [int32_t]; [LoopCount] converts to [int32_t]. *)
Definition cdiv (a b : Z) : Z :=
  if b =? 0 then int32 (div_undef tg a) else int32 (Z.quot a b).

(** *** [Sensor_PID] *)

(** Lines 120-140. *)
Definition Sensor_noise (cfg : CONFIG_STRUCT) (inp : Inputs) (s : State)
  : State :=
  if Vibration cfg =? ON tg then
    let raw := gyroADC_raw inp in
    let fs0 := of_Z (cint (cint (raw ROLL + raw PITCH) + raw YAW)) in
    let t := sub (mul fs0 HPF_O) (HPF_V s) in
    let v := add (HPF_V s) (div (add (HPF_I s) t) HPF_C) in
    let i := add (HPF_I s) (div t HPF_L) in
    let fs := sub fs0 (div v HPF_O) in
    let n := div (add (mul (GyroAvgNoise s) (of_Z 99))
                      (of_Z (c_abs (to_int 16 fs))))
                 (of_Z 100) in
    let n := if ltb (of_Z 999) n then of_Z 999 else n in
    set_noise s t v i fs n
  else s.

(** Lines 173-193: the new value of [gyroSmooth[axis]]. *)
Definition gyro_LPF (cfg : CONFIG_STRUCT) (s : State) (axis : Axis) : float :=
  let tempf1 :=
    if negb (Servo_rate cfg =? FAST tg)
    then LPF_lookup tg (Gyro_LPF cfg)
    else LPF_lookup_HS tg (Gyro_LPF cfg) in
  let gyroADCf := of_Z (gyroADC s axis) in
  if negb (Gyro_LPF cfg =? NOFILTER tg)
  then div (add (mul (gyroSmooth s axis) (sub tempf1 (of_Z 1))) gyroADCf)
           tempf1
  else gyroADCf.

(** Lines 207-218: scale an increment by [period / STANDARDLOOP]. *)
Definition loop_scale (period x : Z) : Z :=
  let factor := div (of_Z (uint32 period)) STANDARDLOOP in
  to_int 32 (mul (of_Z x) factor).

(** Body of the axis loop, lines 142-252. *)
Definition Sensor_axis (cfg : CONFIG_STRUCT) (period : Z) (inp : Inputs)
    (s : State) (axis : Axis) : State :=
  let stick_P1 := stick_rate (Stick_rates cfg P1 axis) (RCinputsAxis inp axis) in
  let stick_P2 := stick_rate (Stick_rates cfg P2 axis) (RCinputsAxis inp axis) in
  let s := set_gyroSmooth s axis (gyro_LPF cfg s axis) in
  let s := set_gyroADC s axis (to_int 16 (gyroSmooth s axis)) in
  let P1_temp := int32 (cint (gyroADC s axis + stick_P1)) in
  let P2_temp := int32 (cint (gyroADC s axis + stick_P2)) in
  let P1_temp := loop_scale period P1_temp in
  let P2_temp := loop_scale period P2_temp in
  let s := set_IntegralGyro s P1 axis (int32 (IntegralGyro s P1 axis + P1_temp)) in
  let s := set_IntegralGyro s P2 axis (int32 (IntegralGyro s P2 axis + P2_temp)) in
  let s :=
    fold_left
      (fun s i =>
         set_IntegralGyro s i axis
           (constrain_I (Raw_I_Constrain cfg i (GYRO axis))
                        (IntegralGyro s i axis)))
      profiles s in
  set_PID_AvgGyro s axis (int32 (PID_AvgGyro s axis + gyroADC s axis)).

(** The increment [P1_temp] resp. [P2_temp] of one tick, lines 204-218, as a
    function of the state the tick starts from. *)
Definition gyro_increment (cfg : CONFIG_STRUCT) (period : Z) (inp : Inputs)
    (s : State) (p : Profile) (a : Axis) : Z :=
  loop_scale period
    (int32 (cint (to_int 16 (gyro_LPF cfg s a)
                  + stick_rate (Stick_rates cfg p a) (RCinputsAxis inp a)))).

(** Lines 270-335. *)
Definition Sensor_vert (cfg : CONFIG_STRUCT) (inp : Inputs) (s : State)
  : State :=
  let s := set_IntegralAccVertf s P1 (add (IntegralAccVertf s P1) (accVertf inp)) in
  let s := set_IntegralAccVertf s P2 (add (IntegralAccVertf s P2) (accVertf inp)) in
  let s := set_IntegralAccVertf s P1 (vert_decay cfg (IntegralAccVertf s P1)) in
  let s := set_IntegralAccVertf s P2 (vert_decay cfg (IntegralAccVertf s P2)) in
  fold_left
    (fun s i =>
       set_IntegralAccVertf s i
         (constrain_vert (Raw_I_Constrain cfg i ZED) (IntegralAccVertf s i)))
    profiles s.

Definition Sensor_PID (cfg : CONFIG_STRUCT) (period : Z) (inp : Inputs)
    (s : State) : State :=
  let s := Sensor_noise cfg inp s in
  let s := fold_left (Sensor_axis cfg period inp) axes s in
  Sensor_vert cfg inp s.

(** *** [Calculate_PID] *)

(** Lines 460-469: leveling term, roll and pitch only. *)
Definition Calc_level (cfg : CONFIG_STRUCT) (inp : Inputs) (axis : Axis)
    (s : State) (i : Profile) : State :=
  let PID_acc_temp1 := int32 (cint (angle inp axis - L_trim cfg i axis)) in
  let PID_acc_temp1 := int32 (PID_acc_temp1 * L_gain cfg i axis) in
  set_PID_ACCs s i axis (int16 (Z.shiftr PID_acc_temp1 8)).

(** Body of the PID loop, lines 380-471. *)
Definition Calc_axis (cfg : CONFIG_STRUCT) (inp : Inputs) (s : State)
    (axis : Axis) : State :=
  let s := set_gyroADC s axis (int16 (cdiv (PID_AvgGyro s axis) (LoopCount inp))) in
  let s := set_PID_AvgGyro s axis 0 in
  let s := set_PID_Gyros s P1 axis
             (PID_gyro_out cfg P1 axis (gyroADC s axis) (IntegralGyro s P1 axis)) in
  let s := set_PID_Gyros s P2 axis
             (PID_gyro_out cfg P2 axis (gyroADC s axis) (IntegralGyro s P2 axis)) in
  match axis with
  | YAW => s
  | _ => fold_left (Calc_level cfg inp axis) profiles s
  end.

(** Z-acc P-term, lines 481-483. *)
Definition acc_zed_P (cfg : CONFIG_STRUCT) (inp : Inputs) (i : Profile) : Z :=
  let t := to_int 32 (opp (accVertf inp)) in
  let t := int32 (t * L_gain cfg i YAW) in
  int32 (t * 3).

(** Z-acc I-term, lines 486-497. *)
Definition acc_zed_I (cfg : CONFIG_STRUCT) (s : State) (i : Profile) : Z :=
  let t := to_int 32 (opp (IntegralAccVertf s i)) in
  let t := int32 (t * I_gain cfg i ZED) in
  limit_acc_I (Raw_I_Limits cfg i ZED) (Z.shiftr t 2).

(** Lines 478-501. *)
Definition Calc_zed (cfg : CONFIG_STRUCT) (inp : Inputs) (s : State)
    (i : Profile) : State :=
  set_PID_ACCs s i YAW
    (int16 (Z.shiftr (int32 (acc_zed_P cfg inp i + acc_zed_I cfg s i))
                     PID_SCALE)).

Definition Calculate_PID (cfg : CONFIG_STRUCT) (inp : Inputs) (s : State)
  : State :=
  let s := fold_left (Calc_axis cfg inp) axes s in
  fold_left (Calc_zed cfg inp) profiles s.

(** *** Call sequences

    The scheduler calls the two entry points in some order; between calls
    the gyro driver may store fresh samples in [gyroADC]. *)
Inductive Call : Type :=
| Sampler (period : Z) (inp : Inputs)
| Combiner (inp : Inputs)
| ReadGyros (g : Axis -> Z).

Definition step (cfg : CONFIG_STRUCT) (s : State) (c : Call) : State :=
  match c with
  | Sampler period inp => Sensor_PID cfg period inp s
  | Combiner inp => Calculate_PID cfg inp s
  | ReadGyros g =>
      fold_left (fun s a => set_gyroADC s a (int16 (g a))) axes s
  end.

Definition run (cfg : CONFIG_STRUCT) (calls : list Call) (s : State) : State :=
  fold_left (step cfg) calls s.

End PID.


(** ** Predicates used by the statements *)

(** The anti-windup limits are non-negative [int32_t] values. *)
Definition constrain_ok (cfg : CONFIG_STRUCT) : Prop :=
  forall p a, 0 <= Raw_I_Constrain cfg p (GYRO a) <= 2147483647.

(** The I-term output limits are non-negative [int32_t] values. *)
Definition limits_ok (cfg : CONFIG_STRUCT) : Prop :=
  forall p a, 0 <= Raw_I_Limits cfg p a <= 2147483647.

(** Every gyro I-term is within its anti-windup limit. *)
Definition clamp_inv (cfg : CONFIG_STRUCT) (s : State) : Prop :=
  forall p a, Z.abs (IntegralGyro s p a) <= Raw_I_Constrain cfg p (GYRO a).

(** All P-, I- and leveling gains of both profiles are zero. *)
Definition zero_gains (cfg : CONFIG_STRUCT) : Prop :=
  forall p,
    let fm := FlightMode cfg p in
    Roll_P_mult fm = 0 /\ Pitch_P_mult fm = 0 /\ Yaw_P_mult fm = 0
    /\ Roll_I_mult fm = 0 /\ Pitch_I_mult fm = 0 /\ Yaw_I_mult fm = 0
    /\ A_Zed_I_mult fm = 0
    /\ A_Roll_P_mult fm = 0 /\ A_Pitch_P_mult fm = 0 /\ A_Zed_P_mult fm = 0.

Definition zero_yaw_trim (cfg : CONFIG_STRUCT) : Prop :=
  forall p, Yaw_trim (FlightMode cfg p) = 0.

(** ** Sample data on which the model is evaluated

    The theorems hold for every [Target]; concrete runs need one.  The
    enumerators and coefficients below are sample values, and the two
    unspecified results are taken to be zero. *)

Definition sample_target : Target :=
  {| ON := 1; FAST := 2; NOFILTER := 7;
     LPF_lookup := fun _ => of_Z 2; LPF_lookup_HS := fun _ => of_Z 2;
     fix_undef := fun _ => 0; div_undef := fun _ => 0 |}.

Definition fc_zero : flight_control :=
  {| Roll_Rate := 0; Pitch_Rate := 0; Yaw_Rate := 0;
     Roll_P_mult := 0; Pitch_P_mult := 0; Yaw_P_mult := 0;
     Roll_I_mult := 0; Pitch_I_mult := 0; Yaw_I_mult := 0; A_Zed_I_mult := 0;
     A_Roll_P_mult := 0; A_Pitch_P_mult := 0; A_Zed_P_mult := 0;
     Yaw_trim := 0 |}.

(** Roll P-gain [pg], roll I-gain [ig], yaw trim [yt]; all else zero. *)
Definition fc_roll (pg ig yt : Z) : flight_control :=
  {| Roll_Rate := 0; Pitch_Rate := 0; Yaw_Rate := 0;
     Roll_P_mult := pg; Pitch_P_mult := 0; Yaw_P_mult := 0;
     Roll_I_mult := ig; Pitch_I_mult := 0; Yaw_I_mult := 0; A_Zed_I_mult := 0;
     A_Roll_P_mult := 0; A_Pitch_P_mult := 0; A_Zed_P_mult := 0;
     Yaw_trim := yt |}.

(** Gyro filter off, vibration display [vib], decay setting [avf], every
    anti-windup limit [c] and every output limit [l]. *)
Definition sample_config (fm : flight_control) (vib avf c l : Z)
  : CONFIG_STRUCT :=
  {| FlightMode := fun _ => fm;
     Vibration := vib; Servo_rate := 0; Gyro_LPF := NOFILTER sample_target;
     AccVertFilter := avf;
     Raw_I_Constrain := fun _ _ => c; Raw_I_Limits := fun _ _ => l;
     Rolltrim := fun _ => 0; Pitchtrim := fun _ => 0 |}.

(** Centred sticks, level attitude, raw roll gyro [raw], vertical
    acceleration [acc], [loops] ticks since the last [Calculate_PID]. *)
Definition sample_inputs (raw : Z) (acc : float) (loops : Z) : Inputs :=
  {| RC_AILERON := 0; RC_ELEVATOR := 0; RC_RUDDER := 0;
     gyroADC_raw := fun a => match a with ROLL => raw | _ => 0 end;
     accVertf := acc; angle := fun _ => 0; LoopCount := loops |}.

(** The gyro driver reports [g] on the roll axis and zero elsewhere. *)
Definition roll_rate_sample (g : Z) : Axis -> Z :=
  fun a => match a with ROLL => g | _ => 0 end.

(** ** Auxiliary definitions for the binary32 proofs *)

(** 1.0f *)
Definition one : float := S754_finite false 8388608 (-23).

(** The second stage of [binary_round_aux]: renormalise the rounded mantissa
    and build the result. *)
Definition round_finish (sx : bool) (m1 e1 : Z) : float :=
  let '(mrs'', e'') := shr_fexp prec emax m1 e1 loc_Exact in
  match shr_m mrs'' with
  | Z0 => S754_zero sx
  | Zpos m =>
      if e'' <=? emax - prec then S754_finite sx m e'' else S754_infinity sx
  | Zneg _ => S754_nan
  end.

(** The decay factor for setting [k] is a positive number below one with
    exponent -24 and mantissa at most 16775538 (0.9999 rounded). *)
Definition decay_factor_ok (k : Z) : bool :=
  match sub (of_Z 1) (div (of_Z k) (of_Z 10000)) with
  | S754_finite false mc (Zneg 24) =>
      (8388608 <=? Zpos mc) && (Zpos mc <=? 16775538)
  | _ => false
  end.

(** ** The noise estimate in the words of the specification

    "(99 * previous estimate + absolute value of the residual) / 100,
    clamped to 999", with the floating-point absolute value. *)
Definition noise_estimate_spec (prev residual : float) : float :=
  let n := div (add (mul prev (of_Z 99)) (fabs residual)) (of_Z 100) in
  if ltb (of_Z 999) n then of_Z 999 else n.


(** ** Further predicates and call patterns *)

Definition is_nan (x : float) : bool :=
  match x with S754_nan => true | _ => false end.

(** Zero, a positive number, plus infinity or a NaN: what a non-negative
    integer converts to. *)
Definition not_negative (x : float) : bool :=
  match x with
  | S754_zero s | S754_infinity s | S754_finite s _ _ => negb s
  | S754_nan => true
  end.

(** [x] is neither above [c] nor below [-c], with the comparisons of lines
    326 and 331. *)
Definition vert_within (c : Z) (x : float) : Prop :=
  ltb (of_Z c) x = false /\ ltb x (opp (of_Z c)) = false.

Definition is_Combiner (c : Call) : bool :=
  match c with Combiner _ => true | _ => false end.

Definition is_Sampler (c : Call) : bool :=
  match c with Sampler _ _ => true | _ => false end.

(** One averaging window: before each tick the gyro driver stores the next
    sample of [gs] in [gyroADC]. *)
Definition sample_window (period : Z) (inp : Inputs) (gs : list (Axis -> Z))
  : list Call :=
  flat_map (fun g => [ReadGyros g; Sampler period inp]) gs.

(** Sum of the samples of one axis. *)
Definition sum_axis (gs : list (Axis -> Z)) (a : Axis) : Z :=
  fold_right (fun g acc => g a + acc) 0 gs.

(** The configured trim of a leveling axis, as [L_trim] is filled. *)
Definition level_trim (cfg : CONFIG_STRUCT) (p : Profile) (a : Axis) : Z :=
  match a with
  | ROLL => Rolltrim cfg p
  | PITCH => Pitchtrim cfg p
  | YAW => 0
  end.

(** The scaling factor for a loop period of [3571 * 2^k] timer counts is
    [2^k] exactly. *)
Definition pow2_factor_ok (k : Z) : bool :=
  match div (of_Z (uint32 (3571 * 2 ^ k))) STANDARDLOOP with
  | S754_finite false 8388608 e => e =? k - 23
  | _ => false
  end.

(** * Properties *)

(** ** Machine-integer facts *)

Lemma pow2_double (w : Z) : 0 < w -> 2 ^ w = 2 * 2 ^ (w - 1).
Proof.
  intros Hw. replace w with (Z.succ (w - 1)) at 1 by lia.
  apply Z.pow_succ_r. lia.
Qed.

Lemma wrap_small (w x : Z) : 0 < w -> fits w x -> wrap w x = x.
Proof.
  unfold fits, wrap. intros Hw H.
  pose proof (pow2_double w Hw) as E.
  rewrite Z.mod_small; lia.
Qed.

Lemma wrap_fits (w x : Z) : 0 < w -> fits w (wrap w x).
Proof.
  unfold fits, wrap. intros Hw.
  pose proof (pow2_double w Hw) as E.
  assert (0 < 2 ^ (w - 1)) by (apply Z.pow_pos_nonneg; lia).
  pose proof (Z.mod_pos_bound (x + 2 ^ (w - 1)) (2 ^ w)). lia.
Qed.

Lemma int32_small (x : Z) : - 2147483648 <= x <= 2147483647 -> int32 x = x.
Proof.
  intros H. apply wrap_small; [lia|].
  unfold fits. change (2 ^ (32 - 1)) with 2147483648. lia.
Qed.

Lemma int32_range (x : Z) : - 2147483648 <= int32 x <= 2147483647.
Proof.
  pose proof (wrap_fits 32 x eq_refl) as H. unfold fits in H.
  change (2 ^ (32 - 1)) with 2147483648 in H. unfold int32. lia.
Qed.

Lemma int16_small (x : Z) : - 32768 <= x <= 32767 -> int16 x = x.
Proof.
  intros H. apply wrap_small; [lia|].
  unfold fits. change (2 ^ (16 - 1)) with 32768. lia.
Qed.

Lemma int16_range (x : Z) : - 32768 <= int16 x <= 32767.
Proof.
  pose proof (wrap_fits 16 x eq_refl) as H. unfold fits in H.
  change (2 ^ (16 - 1)) with 32768 in H. unfold int16. lia.
Qed.

Lemma cint_small (x : Z) : - 32768 <= x <= 32767 -> cint x = x.
Proof. exact (int16_small x). Qed.

Lemma cint_range (x : Z) : - 32768 <= cint x <= 32767.
Proof. exact (int16_range x). Qed.

Lemma int8_small (x : Z) : - 128 <= x <= 127 -> int8 x = x.
Proof.
  intros H. apply wrap_small; [lia|].
  unfold fits. change (2 ^ (8 - 1)) with 128. lia.
Qed.

Lemma int8_range (x : Z) : - 128 <= int8 x <= 127.
Proof.
  pose proof (wrap_fits 8 x eq_refl) as H. unfold fits in H.
  change (2 ^ (8 - 1)) with 128 in H. unfold int8. lia.
Qed.

Lemma fits32_iff (x : Z) : fits 32 x <-> - 2147483648 <= x <= 2147483647.
Proof. unfold fits. change (2 ^ (32 - 1)) with 2147483648. lia. Qed.

(** ** The clamps *)

Lemma constrain_I_bound (c i : Z) :
  0 <= c <= 2147483647 -> Z.abs (constrain_I c i) <= c.
Proof.
  intros Hc. unfold constrain_I. rewrite !int32_small by lia.
  destruct (c <? i) eqn:E1; [apply Z.ltb_lt in E1 | apply Z.ltb_ge in E1].
  - destruct (c <? - c) eqn:E2;
      [apply Z.ltb_lt in E2 | apply Z.ltb_ge in E2]; lia.
  - destruct (i <? - c) eqn:E2;
      [apply Z.ltb_lt in E2 | apply Z.ltb_ge in E2]; lia.
Qed.

Lemma limit_I_bound (l i : Z) :
  0 <= l <= 2147483647 -> Z.abs (limit_I l i) <= l.
Proof.
  intros Hl. unfold limit_I. rewrite !int32_small by lia.
  destruct (l <? i) eqn:E1; [apply Z.ltb_lt in E1 | apply Z.ltb_ge in E1].
  - lia.
  - destruct (i <? - l) eqn:E2;
      [apply Z.ltb_lt in E2 | apply Z.ltb_ge in E2]; lia.
Qed.

Lemma limit_I_zero (l : Z) : 0 <= l <= 2147483647 -> limit_I l 0 = 0.
Proof.
  intros Hl. unfold limit_I. rewrite !int32_small by lia.
  destruct (l <? 0) eqn:E1; [apply Z.ltb_lt in E1; lia |].
  destruct (0 <? - l) eqn:E2; [apply Z.ltb_lt in E2; lia | reflexivity].
Qed.

Lemma limit_acc_I_zero (l : Z) : 0 <= l <= 2147483647 -> limit_acc_I l 0 = 0.
Proof.
  intros Hl. unfold limit_acc_I. rewrite !int32_small by lia.
  destruct (l <? 0) eqn:E1; [apply Z.ltb_lt in E1; lia |].
  destruct (0 <? - l) eqn:E2; [apply Z.ltb_lt in E2; lia | reflexivity].
Qed.

(** ** Reading one global after a call

    Each lemma of this part projects one array cell out of the state an
    entry point returns. *)

Ltac project :=
  cbv beta iota zeta delta
    [Calculate_PID Sensor_PID Sensor_axis Sensor_vert fold_left axes profiles
     Calc_axis Calc_zed Calc_level step
     set_PID_Gyros set_PID_ACCs set_IntegralGyro set_IntegralAccVertf
     set_gyroSmooth set_PID_AvgGyro set_gyroADC set_noise
     PID_Gyros PID_ACCs IntegralGyro IntegralAccVertf gyroSmooth PID_AvgGyro
     GyroAvgNoise HPF_V HPF_T HPF_I fsample gyroADC
     upd1 upd2 updP Profile_eqb Axis_eqb andb].

Section Projections.

Variable tg : Target.
Variable cfg : CONFIG_STRUCT.

(** The averaged sample [Calculate_PID] works with. *)
Lemma Calc_gyroADC (inp : Inputs) (s : State) (a : Axis) :
  gyroADC (Calculate_PID tg cfg inp s) a
  = int16 (cdiv tg (PID_AvgGyro s a) (LoopCount inp)).
Proof. destruct a; project; reflexivity. Qed.

Lemma Calc_PID_AvgGyro (inp : Inputs) (s : State) (a : Axis) :
  PID_AvgGyro (Calculate_PID tg cfg inp s) a = 0.
Proof. destruct a; project; reflexivity. Qed.

Lemma Calc_IntegralGyro (inp : Inputs) (s : State) :
  IntegralGyro (Calculate_PID tg cfg inp s) = IntegralGyro s.
Proof. reflexivity. Qed.

Lemma Calc_PID_Gyros (inp : Inputs) (s : State) (p : Profile) (a : Axis) :
  PID_Gyros (Calculate_PID tg cfg inp s) p a
  = PID_gyro_out cfg p a (int16 (cdiv tg (PID_AvgGyro s a) (LoopCount inp)))
                 (IntegralGyro s p a).
Proof. destruct p, a; project; reflexivity. Qed.

Lemma Calc_PID_ACCs (inp : Inputs) (s : State) (p : Profile) (a : Axis) :
  PID_ACCs (Calculate_PID tg cfg inp s) p a
  = match a with
    | YAW => int16 (Z.shiftr (int32 (acc_zed_P tg cfg inp p
                                     + acc_zed_I tg cfg s p)) PID_SCALE)
    | _ => int16 (Z.shiftr
                    (int32 (int32 (cint (angle inp a - L_trim cfg p a))
                            * L_gain cfg p a)) 8)
    end.
Proof. destruct p, a; project; reflexivity. Qed.

(** [Sensor_noise] leaves the gyro and accelerometer globals alone. *)
Lemma Sensor_noise_frame (inp : Inputs) (s : State) :
  let s' := Sensor_noise tg cfg inp s in
  IntegralGyro s' = IntegralGyro s /\ gyroADC s' = gyroADC s
  /\ gyroSmooth s' = gyroSmooth s /\ PID_AvgGyro s' = PID_AvgGyro s
  /\ IntegralAccVertf s' = IntegralAccVertf s.
Proof.
  unfold Sensor_noise. destruct (Vibration cfg =? ON tg); cbn; auto.
Qed.

Lemma Sensor_vert_IntegralGyro (inp : Inputs) (s : State) :
  IntegralGyro (Sensor_vert cfg inp s) = IntegralGyro s.
Proof. project; reflexivity. Qed.

Lemma gyro_LPF_ext (s s' : State) (a : Axis) :
  gyroADC s' = gyroADC s -> gyroSmooth s' = gyroSmooth s ->
  gyro_LPF tg cfg s' a = gyro_LPF tg cfg s a.
Proof. intros E1 E2. unfold gyro_LPF. rewrite E1, E2. reflexivity. Qed.

Lemma Sensor_axes_IntegralGyro (period : Z) (inp : Inputs) (s : State)
    (p : Profile) (a : Axis) :
  IntegralGyro (fold_left (Sensor_axis tg cfg period inp) axes s) p a
  = constrain_I (Raw_I_Constrain cfg p (GYRO a))
      (int32 (IntegralGyro s p a + gyro_increment tg cfg period inp s p a)).
Proof.
  destruct p, a; project; cbv beta delta [gyro_increment gyro_LPF];
    project; reflexivity.
Qed.

Lemma Sensor_IntegralGyro (period : Z) (inp : Inputs) (s : State)
    (p : Profile) (a : Axis) :
  IntegralGyro (Sensor_PID tg cfg period inp s) p a
  = constrain_I (Raw_I_Constrain cfg p (GYRO a))
      (int32 (IntegralGyro s p a + gyro_increment tg cfg period inp s p a)).
Proof.
  destruct (Sensor_noise_frame inp s) as (E1 & E2 & E3 & E4 & E5).
  unfold Sensor_PID.
  rewrite Sensor_vert_IntegralGyro, Sensor_axes_IntegralGyro, E1.
  unfold gyro_increment. rewrite (gyro_LPF_ext s _ a E2 E3). reflexivity.
Qed.

Lemma Sensor_gyroSmooth (period : Z) (inp : Inputs) (s : State) (a : Axis) :
  gyroSmooth (Sensor_PID tg cfg period inp s) a = gyro_LPF tg cfg s a.
Proof.
  destruct (Sensor_noise_frame inp s) as (E1 & E2 & E3 & E4 & E5).
  rewrite <- (gyro_LPF_ext s _ a E2 E3).
  destruct a; project; cbv beta delta [gyro_LPF]; project; reflexivity.
Qed.

Lemma Sensor_gyroADC (period : Z) (inp : Inputs) (s : State) (a : Axis) :
  gyroADC (Sensor_PID tg cfg period inp s) a
  = to_int tg 16 (gyro_LPF tg cfg s a).
Proof.
  destruct (Sensor_noise_frame inp s) as (E1 & E2 & E3 & E4 & E5).
  rewrite <- (gyro_LPF_ext s _ a E2 E3).
  destruct a; project; cbv beta delta [gyro_LPF]; project; reflexivity.
Qed.

Lemma Sensor_PID_AvgGyro (period : Z) (inp : Inputs) (s : State) (a : Axis) :
  PID_AvgGyro (Sensor_PID tg cfg period inp s) a
  = int32 (PID_AvgGyro s a + to_int tg 16 (gyro_LPF tg cfg s a)).
Proof.
  destruct (Sensor_noise_frame inp s) as (E1 & E2 & E3 & E4 & E5).
  rewrite <- (gyro_LPF_ext s _ a E2 E3), <- E4.
  destruct a; project; cbv beta delta [gyro_LPF]; project; reflexivity.
Qed.

Lemma Sensor_IntegralAccVertf (period : Z) (inp : Inputs) (s : State)
    (p : Profile) :
  IntegralAccVertf (Sensor_PID tg cfg period inp s) p
  = constrain_vert (Raw_I_Constrain cfg p ZED)
      (vert_decay cfg (add (IntegralAccVertf s p) (accVertf inp))).
Proof.
  destruct (Sensor_noise_frame inp s) as (E1 & E2 & E3 & E4 & E5).
  rewrite <- E5.
  destruct p; project; reflexivity.
Qed.

End Projections.


(** ** Gyro I-term clamp *)

Section ClampInvariant.

Variable tg : Target.
Variable cfg : CONFIG_STRUCT.
Hypothesis Hlim : constrain_ok cfg.

Lemma clamp_inv_init : clamp_inv cfg init_state.
Proof. intros p a. cbn. apply Hlim. Qed.

(** A tick establishes the bound whatever the state before it was. *)
Lemma clamp_inv_Sensor_PID (period : Z) (inp : Inputs) (s : State) :
  clamp_inv cfg (Sensor_PID tg cfg period inp s).
Proof.
  intros p a. rewrite Sensor_IntegralGyro. apply constrain_I_bound, Hlim.
Qed.

Lemma clamp_inv_step (s : State) (c : Call) :
  clamp_inv cfg s -> clamp_inv cfg (step tg cfg s c).
Proof.
  intros Hs. destruct c as [period inp | inp | g].
  - apply clamp_inv_Sensor_PID.
  - intros p a. cbn [step]. rewrite Calc_IntegralGyro. apply Hs.
  - exact Hs.
Qed.

Lemma clamp_inv_run (calls : list Call) (s : State) :
  clamp_inv cfg s -> clamp_inv cfg (run tg cfg calls s).
Proof.
  revert s. unfold run.
  induction calls as [|c calls IH]; intros s Hs; cbn [fold_left].
  - exact Hs.
  - apply IH, clamp_inv_step, Hs.
Qed.

End ClampInvariant.

(** C2. Whatever sequence of [Sensor_PID] and [Calculate_PID] calls (and
    gyro driver updates) has run since start-up, and the list may stop after
    any call, every gyro I-term is within its anti-windup limit:
    [|IntegralGyro[p][a]| <= Config.Raw_I_Constrain[p][a]], provided the
    limits are non-negative. *)
Theorem clamp_invariant (tg : Target) (cfg : CONFIG_STRUCT)
    (calls : list Call) (p : Profile) (a : Axis) :
  constrain_ok cfg ->
  Z.abs (IntegralGyro (run tg cfg calls init_state) p a)
  <= Raw_I_Constrain cfg p (GYRO a).
Proof.
  intros Hlim. apply clamp_inv_run; [exact Hlim|].
  apply clamp_inv_init, Hlim.
Qed.

Lemma clamp_invariant_witness :
  Z.abs (IntegralGyro
           (run sample_target (sample_config fc_zero 0 0 1000 0)
                [ReadGyros (roll_rate_sample 900);
                 Sampler 3571 (sample_inputs 0 (of_Z 0) 1);
                 Sampler 3571 (sample_inputs 0 (of_Z 0) 1);
                 Combiner (sample_inputs 0 (of_Z 0) 2)]
                init_state) P1 ROLL)
  <= 1000.
Proof.
  apply (clamp_invariant sample_target (sample_config fc_zero 0 0 1000 0)).
  intros p a. cbn. lia.
Defined.

(** ** What [Calculate_PID] does to [gyroADC] *)

(** On the target's division: with a non-zero divisor and an accumulator of
    [int32_t] range it is the quotient truncated toward zero. *)
Lemma cdiv_quot (tg : Target) (a b : Z) :
  1 <= b -> - 2147483648 <= a <= 2147483647 -> cdiv tg a b = Z.quot a b.
Proof.
  intros Hb Ha. unfold cdiv.
  destruct (b =? 0) eqn:E; [apply Z.eqb_eq in E; lia|].
  apply int32_small.
  assert (Z.abs (Z.quot a b) <= Z.abs a).
  { rewrite <- (Z.abs_eq b) at 1 by lia. rewrite <- Z.quot_abs by lia.
    apply Z.quot_le_upper_bound; [lia|]. nia. }
  assert (a < 0 -> Z.quot a b <= 0).
  { intros. apply Z.quot_le_upper_bound; lia. }
  lia.
Qed.

(** C10. Every [Calculate_PID] overwrites [gyroADC[axis]], on every axis,
    with the accumulator divided by the tick count, cast to [int16_t]; with
    a tick count of at least one and the accumulator an [int32_t], that is
    the quotient truncated toward zero.  The next [Sensor_PID] replaces it
    by the truncated filter output. *)
Theorem Calculate_PID_overwrites_gyroADC (tg : Target) (cfg : CONFIG_STRUCT)
    (inp : Inputs) (s : State) (period : Z) (inp' : Inputs) (a : Axis) :
  let s' := Calculate_PID tg cfg inp s in
  let s'' := Sensor_PID tg cfg period inp' s' in
  gyroADC s' a = int16 (cdiv tg (PID_AvgGyro s a) (LoopCount inp))
  /\ (1 <= LoopCount inp ->
      - 2147483648 <= PID_AvgGyro s a <= 2147483647 ->
      gyroADC s' a = int16 (Z.quot (PID_AvgGyro s a) (LoopCount inp)))
  /\ gyroADC s'' a = to_int tg 16 (gyroSmooth s'' a).
Proof.
  cbv zeta. split; [|split].
  - apply Calc_gyroADC.
  - intros Hk Hacc. rewrite Calc_gyroADC, cdiv_quot by assumption.
    reflexivity.
  - rewrite Sensor_gyroADC, Sensor_gyroSmooth. reflexivity.
Qed.

(** Two ticks at roll rates 100 and 201 leave 301 in the accumulator;
    [Calculate_PID] with a tick count of 2 leaves 150 in [gyroADC[ROLL]],
    neither of the two samples. *)
Lemma Calculate_PID_overwrites_gyroADC_witness :
  let cfg := sample_config fc_zero 0 0 0 0 in
  let tick := Sampler 3571 (sample_inputs 0 (of_Z 0) 1) in
  let s := run sample_target cfg
             [ReadGyros (roll_rate_sample 100); tick;
              ReadGyros (roll_rate_sample 201); tick] init_state in
  let inp := sample_inputs 0 (of_Z 0) 2 in
  let s' := Calculate_PID sample_target cfg inp s in
  let s'' := Sensor_PID sample_target cfg 3571 inp s' in
  (gyroADC s ROLL = 201 /\ PID_AvgGyro s ROLL = 301
   /\ int16 (Z.quot (PID_AvgGyro s ROLL) (LoopCount inp)) = 150)
  /\ gyroADC s' ROLL
     = int16 (cdiv sample_target (PID_AvgGyro s ROLL) (LoopCount inp))
  /\ gyroADC s' ROLL = int16 (Z.quot (PID_AvgGyro s ROLL) (LoopCount inp))
  /\ gyroADC s'' ROLL = to_int sample_target 16 (gyroSmooth s'' ROLL).
Proof.
  cbv zeta. split; [repeat split; vm_compute; reflexivity|].
  destruct (Calculate_PID_overwrites_gyroADC sample_target
              (sample_config fc_zero 0 0 0 0) (sample_inputs 0 (of_Z 0) 2)
              (run sample_target (sample_config fc_zero 0 0 0 0)
                 [ReadGyros (roll_rate_sample 100);
                  Sampler 3571 (sample_inputs 0 (of_Z 0) 1);
                  ReadGyros (roll_rate_sample 201);
                  Sampler 3571 (sample_inputs 0 (of_Z 0) 1)] init_state)
              3571 (sample_inputs 0 (of_Z 0) 2) ROLL) as (H1 & H2 & H3).
  refine (conj H1 (conj (H2 _ _) H3)).
  - cbn. lia.
  - vm_compute. split; intros H; discriminate H.
Defined.

(** ** Stick-rate mapper *)

Lemma shiftr_abs_mono (x k : Z) :
  0 <= k -> Z.abs (Z.shiftr x (k + 1)) <= Z.abs (Z.shiftr x k).
Proof.
  intros Hk. rewrite !Z.shiftr_div_pow2 by lia.
  rewrite Z.pow_add_r by lia. change (2 ^ 1) with 2.
  rewrite <- Z.div_div by (try lia; apply Z.pow_pos_nonneg; lia).
  set (y := x / 2 ^ k).
  Z.to_euclidean_division_equations. lia.
Qed.

Lemma shiftr_range16 (x k : Z) :
  0 <= k -> - 32768 <= x <= 32767 -> - 32768 <= Z.shiftr x k <= 32767.
Proof.
  intros Hk Hx. rewrite Z.shiftr_div_pow2 by lia.
  assert (0 < 2 ^ k) by (apply Z.pow_pos_nonneg; lia).
  split.
  - apply Z.div_le_lower_bound; nia.
  - apply Z.lt_succ_r. apply Z.div_lt_upper_bound; nia.
Qed.

(** One setting up never lowers the magnitude, as long as doubling the
    stick value stays inside [int16_t]. *)
Lemma stick_rate_step (rc r : Z) :
  - 16384 <= rc <= 16383 -> 0 <= r < 7 ->
  Z.abs (stick_rate r rc) <= Z.abs (stick_rate (r + 1) rc).
Proof.
  intros Hrc Hr. unfold stick_rate.
  destruct (r <=? 6) eqn:E; [|apply Z.leb_gt in E; lia].
  destruct (r + 1 <=? 6) eqn:E'; [apply Z.leb_le in E' | apply Z.leb_gt in E'].
  - rewrite !int16_small by (apply shiftr_range16; lia).
    replace (4 - (r - 2)) with ((4 - (r + 1 - 2)) + 1) by lia.
    apply shiftr_abs_mono. lia.
  - assert (r = 6) by lia. subst r.
    change (4 - (6 - 2)) with 0. change (6 + 1 - 6) with 1.
    rewrite Z.shiftr_0_r, Z.shiftl_mul_pow2 by lia. change (2 ^ 1) with 2.
    rewrite !int16_small by lia. lia.
Qed.

(** C4, as the code has it.  For a stick value whose double fits in
    [int16_t] (-16384..16383, which covers the receiver's range of about
    +-1000), the magnitude of the mapped value is non-decreasing in the rate
    setting over 0..7. *)
Theorem stick_rate_monotone (rc r1 r2 : Z) :
  - 16384 <= rc <= 16383 -> 0 <= r1 <= r2 -> r2 <= 7 ->
  Z.abs (stick_rate r1 rc) <= Z.abs (stick_rate r2 rc).
Proof.
  intros Hrc H12 H7.
  assert (Hn : forall n : nat,
             r1 + Z.of_nat n <= 7 ->
             Z.abs (stick_rate r1 rc)
             <= Z.abs (stick_rate (r1 + Z.of_nat n) rc)).
  { induction n as [|n IH]; intros Hle.
    - rewrite Z.add_0_r. lia.
    - rewrite Nat2Z.inj_succ in *.
      replace (r1 + Z.succ (Z.of_nat n)) with ((r1 + Z.of_nat n) + 1) by lia.
      etransitivity; [apply IH; lia | apply stick_rate_step; lia]. }
  replace r2 with (r1 + Z.of_nat (Z.to_nat (r2 - r1))) by lia.
  apply Hn. lia.
Qed.

Lemma stick_rate_monotone_witness :
  Z.abs (stick_rate 2 (-1000)) <= Z.abs (stick_rate 7 (-1000)).
Proof. apply stick_rate_monotone; lia. Defined.

(** C4 as stated fails: at setting 7 the left shift of a large stick value
    leaves [int16_t], and the stored result is smaller in magnitude than at
    setting 6. *)
Lemma stick_rate_not_monotone :
  stick_rate 6 30000 = 30000 /\ stick_rate 7 30000 = - 5536
  /\ ~ Z.abs (stick_rate 6 30000) <= Z.abs (stick_rate 7 30000).
Proof. repeat split. vm_compute. intros H. apply H. reflexivity. Qed.


(** ** The combiner on concrete gains *)

Lemma zero_gains_tables (cfg : CONFIG_STRUCT) :
  zero_gains cfg ->
  (forall p a, P_gain cfg p a = 0) /\ (forall p a, I_gain cfg p a = 0)
  /\ (forall p a, L_gain cfg p a = 0).
Proof.
  intros H. repeat split; intros p a;
    destruct (H p) as (H1 & H2 & H3 & H4 & H5 & H6 & H7 & H8 & H9 & H10).
  - unfold P_gain. destruct a; rewrite ?H1, ?H2, ?H3; reflexivity.
  - unfold I_gain. destruct a as [[ | | ]|]; rewrite ?H4, ?H5, ?H6, ?H7;
      reflexivity.
  - unfold L_gain. destruct a; rewrite ?H8, ?H9, ?H10; reflexivity.
Qed.

(** C6. With an accumulated roll sample of 100, one tick since the last
    call, roll P-gain 10 and roll I-gain 0 (and a non-negative roll output
    limit), [Calculate_PID] works with the average 100, forms the
    proportional term 100 * 10 * 3 = 3000 and publishes
    [PID_Gyros[p][ROLL] = 3000 >> 6 = 46]. *)
Theorem roll_scenario (tg : Target) (cfg : CONFIG_STRUCT) (inp : Inputs)
    (s : State) (p : Profile) :
  PID_AvgGyro s ROLL = 100 -> LoopCount inp = 1 ->
  Roll_P_mult (FlightMode cfg p) = 10 -> Roll_I_mult (FlightMode cfg p) = 0 ->
  0 <= Raw_I_Limits cfg p (GYRO ROLL) <= 2147483647 ->
  let s' := Calculate_PID tg cfg inp s in
  gyroADC s' ROLL = 100
  /\ PID_gyro_P cfg p ROLL (gyroADC s' ROLL) = 3000
  /\ PID_Gyros s' p ROLL = 46.
Proof.
  intros Havg Hloop HP HI HL. cbv zeta.
  assert (Eg : gyroADC (Calculate_PID tg cfg inp s) ROLL = 100).
  { rewrite Calc_gyroADC, Havg, Hloop. reflexivity. }
  assert (EP : PID_gyro_P cfg p ROLL 100 = 3000).
  { unfold PID_gyro_P, gyro_bias, P_gain. rewrite HP. reflexivity. }
  assert (EI : PID_Gyro_I_actual cfg p ROLL (IntegralGyro s p ROLL) = 0).
  { unfold PID_Gyro_I_actual, gyro_I_product, I_gain. rewrite HI.
    change (int8 0) with 0. rewrite Z.mul_0_r.
    change (Z.shiftr (int32 0) 5) with 0. apply limit_I_zero, HL. }
  rewrite Eg. repeat split; [exact EP|].
  rewrite Calc_PID_Gyros, Havg, Hloop.
  change (int16 (cdiv tg 100 1)) with 100.
  unfold PID_gyro_out. rewrite EP, EI. reflexivity.
Qed.

Lemma roll_scenario_witness :
  let cfg := sample_config (fc_roll 10 0 0) 0 0 1000 500 in
  let s := run sample_target cfg
             [ReadGyros (roll_rate_sample 100);
              Sampler 3571 (sample_inputs 0 (of_Z 0) 1)] init_state in
  let s' := Calculate_PID sample_target cfg (sample_inputs 0 (of_Z 0) 1) s in
  gyroADC s' ROLL = 100
  /\ PID_gyro_P cfg P1 ROLL (gyroADC s' ROLL) = 3000
  /\ PID_Gyros s' P1 ROLL = 46.
Proof.
  cbv zeta. apply roll_scenario.
  - vm_compute. reflexivity.
  - reflexivity.
  - reflexivity.
  - reflexivity.
  - cbn. lia.
Defined.

(** C8, as the code has it.  After any history of calls, if all gains are
    zero, the yaw trims are zero and the I-term output limits are
    non-negative, then [Calculate_PID] publishes zero in every cell of
    [PID_Gyros] and [PID_ACCs]; sticks and gyros may be anything. *)
Theorem zero_gains_zero_outputs (tg : Target) (cfg : CONFIG_STRUCT)
    (calls : list Call) (inp : Inputs) (p : Profile) (a : Axis) :
  zero_gains cfg -> zero_yaw_trim cfg -> limits_ok cfg ->
  let s' := Calculate_PID tg cfg inp (run tg cfg calls init_state) in
  PID_Gyros s' p a = 0 /\ PID_ACCs s' p a = 0.
Proof.
  intros Hg Ht Hl. cbv zeta.
  destruct (zero_gains_tables cfg Hg) as (HP & HI & HL).
  split.
  - rewrite Calc_PID_Gyros.
    unfold PID_gyro_out, PID_gyro_P, PID_Gyro_I_actual, gyro_I_product.
    rewrite HP, HI, !Z.mul_0_r.
    assert (Eb : gyro_bias cfg p a = 0).
    { unfold gyro_bias. destruct a; try reflexivity. rewrite Ht. reflexivity. }
    rewrite Eb. change (Z.shiftr (int32 0) 5) with 0.
    rewrite limit_I_zero by apply Hl. reflexivity.
  - rewrite Calc_PID_ACCs.
    unfold acc_zed_P, acc_zed_I.
    destruct a; rewrite ?HL, ?HI, ?Z.mul_0_r; try reflexivity.
    change (Z.shiftr (int32 0) 2) with 0.
    rewrite limit_acc_I_zero by apply Hl. reflexivity.
Qed.

Lemma zero_gains_zero_outputs_witness :
  let cfg := sample_config fc_zero 0 0 1000 500 in
  let inp := sample_inputs 0 (of_Z 0) 1 in
  let s' := Calculate_PID sample_target cfg inp
              (run sample_target cfg [Sampler 3571 inp; Sampler 3571 inp]
                   init_state) in
  PID_Gyros s' P2 YAW = 0 /\ PID_ACCs s' P2 YAW = 0.
Proof.
  cbv zeta. apply zero_gains_zero_outputs.
  - intros p. cbn. repeat split.
  - intros p. reflexivity.
  - intros p a. cbn. lia.
Defined.

(** C8 as stated fails: with zero sticks, zero gyros and zero gains, a yaw
    trim of 1 alone gives [PID_Gyros[P1][YAW] = ((1 << 6) * 3) >> 6 = 3]. *)
Lemma yaw_trim_nonzero_output :
  let cfg := sample_config (fc_roll 0 0 1) 0 0 0 0 in
  let inp := sample_inputs 0 (of_Z 0) 1 in
  zero_gains cfg
  /\ PID_Gyros (Calculate_PID sample_target cfg inp
                  (Sensor_PID sample_target cfg 3571 inp init_state))
               P1 YAW = 3.
Proof.
  cbv zeta. split.
  - intros p. cbn. repeat split.
  - vm_compute. reflexivity.
Qed.

(** C3, at a failing input.  One tick with a roll rate of 1000 and a roll
    P-gain of 100: the average is 1000 and the accumulator is reset, but the
    product [gyroADC[axis] * P_gain[P1][axis]] is a 16-bit [int] product,
    100000 wraps to -31072, and the proportional term is -93216 instead of
    100 * 3 * 1000 = 300000. *)
Theorem P_term_16_bit_product :
  let cfg := sample_config (fc_roll 100 0 0) 0 0 0 0 in
  let inp := sample_inputs 0 (of_Z 0) 1 in
  let s := run sample_target cfg
             [ReadGyros (roll_rate_sample 1000); Sampler 3571 inp] init_state in
  let s' := Calculate_PID sample_target cfg inp s in
  PID_AvgGyro s ROLL = 1000
  /\ gyroADC s' ROLL = Z.quot 1000 1
  /\ PID_gyro_P cfg P1 ROLL (gyroADC s' ROLL) = - 93216
  /\ P_gain cfg P1 ROLL * 3 * Z.quot 1000 1 = 300000
  /\ PID_AvgGyro s' ROLL = 0.
Proof. cbv zeta. repeat split; vm_compute; reflexivity. Qed.

(** Where the 16-bit product does not overflow, the proportional term of a
    non-yaw axis is the gain times three times the average. *)
Lemma P_term_average (tg : Target) (cfg : CONFIG_STRUCT) (inp : Inputs)
    (s : State) (p : Profile) (a : Axis) :
  a <> YAW -> 1 <= LoopCount inp ->
  - 2147483648 <= PID_AvgGyro s a <= 2147483647 ->
  let avg := Z.quot (PID_AvgGyro s a) (LoopCount inp) in
  - 32768 <= avg <= 32767 ->
  - 32768 <= avg * P_gain cfg p a <= 32767 ->
  let s' := Calculate_PID tg cfg inp s in
  PID_gyro_P cfg p a (gyroADC s' a) = P_gain cfg p a * 3 * avg
  /\ PID_AvgGyro s' a = 0.
Proof.
  intros Ha Hl Hacc avg Havg Hprod. cbv zeta.
  rewrite Calc_gyroADC, Calc_PID_AvgGyro, cdiv_quot by assumption.
  fold avg. rewrite int16_small by assumption. split; [|reflexivity].
  unfold PID_gyro_P.
  assert (Eb : gyro_bias cfg p a = 0) by (destruct a; [reflexivity..|tauto]).
  rewrite Eb, Z.add_0_l, cint_small by assumption.
  rewrite (int32_small (avg * P_gain cfg p a)) by lia.
  rewrite int32_small by lia. lia.
Qed.

(** In general the proportional term of a non-yaw axis is three times the
    16-bit product. *)
Lemma P_term_wrapped (tg : Target) (cfg : CONFIG_STRUCT) (inp : Inputs)
    (s : State) (p : Profile) (a : Axis) :
  a <> YAW ->
  let g := gyroADC (Calculate_PID tg cfg inp s) a in
  PID_gyro_P cfg p a g = 3 * cint (g * P_gain cfg p a).
Proof.
  intros Ha. cbv zeta. unfold PID_gyro_P.
  assert (Eb : gyro_bias cfg p a = 0) by (destruct a; [reflexivity..|tauto]).
  rewrite Eb, Z.add_0_l.
  match goal with |- context [cint ?x] => pose proof (cint_range x) as Hc end.
  rewrite (int32_small (cint _)) by lia.
  rewrite int32_small by lia. lia.
Qed.

(** ** Z-acc I-term *)

(** C1, as the code has it.  One tick takes the Z-acc I-term of each profile
    through: add [accVertf], multiply by [1 - AccVertFilter / 10000], clamp
    to [+-Config.Raw_I_Constrain[p][ZED]], the anti-windup table. *)
Theorem vertical_integrator_update (tg : Target) (cfg : CONFIG_STRUCT)
    (period : Z) (inp : Inputs) (s : State) (p : Profile) :
  IntegralAccVertf (Sensor_PID tg cfg period inp s) p
  = constrain_vert (Raw_I_Constrain cfg p ZED)
      (mul (add (IntegralAccVertf s p) (accVertf inp))
           (sub (of_Z 1) (div (of_Z (AccVertFilter cfg)) (of_Z 10000)))).
Proof. apply Sensor_IntegralAccVertf. Qed.

(** C1 as stated fails: with an anti-windup limit of 50 and an output limit
    of 10, a vertical acceleration of 100 leaves the I-term at 50, not at
    10. *)
Lemma vertical_integrator_not_output_limit :
  let cfg := sample_config fc_zero 0 0 50 10 in
  let inp := sample_inputs 0 (of_Z 100) 1 in
  IntegralAccVertf (Sensor_PID sample_target cfg 3571 inp init_state) P1
  = of_Z 50
  /\ constrain_vert (Raw_I_Limits cfg P1 ZED)
       (mul (add (IntegralAccVertf init_state P1) (accVertf inp))
            (sub (of_Z 1) (div (of_Z (AccVertFilter cfg)) (of_Z 10000))))
     = of_Z 10
  /\ of_Z 50 <> of_Z 10.
Proof.
  cbv zeta. repeat split; vm_compute; try reflexivity. intros H; discriminate H.
Qed.


(** ** binary32 rounding *)

Lemma iter_pos_nat {A : Type} (f : A -> A) (p : positive) (x : A) :
  iter_pos f p x = Nat.iter (Pos.to_nat p) f x.
Proof.
  revert x. induction p as [p IH | p IH |]; intros x; cbn [iter_pos].
  - rewrite !IH, Pos2Nat.inj_xI.
    replace (S (2 * Pos.to_nat p))%nat
      with (Pos.to_nat p + (Pos.to_nat p + 1))%nat by lia.
    rewrite !Nat.iter_add. reflexivity.
  - rewrite !IH, Pos2Nat.inj_xO.
    replace (2 * Pos.to_nat p)%nat
      with (Pos.to_nat p + Pos.to_nat p)%nat by lia.
    rewrite Nat.iter_add. reflexivity.
  - reflexivity.
Qed.

(** One right shift halves the mantissa. *)
Lemma shr_1_m (r : shr_record) :
  0 <= shr_m r -> shr_m (shr_1 r) = shr_m r / 2.
Proof.
  destruct r as [m r s]. cbn [shr_m]. intros Hm.
  destruct m as [|[p|p|]|p]; cbn [shr_1 shr_m].
  - reflexivity.
  - apply (Z.div_unique_pos (Zpos p~1) 2 (Zpos p) 1); lia.
  - apply (Z.div_unique_pos (Zpos p~0) 2 (Zpos p) 0); lia.
  - reflexivity.
  - lia.
Qed.

Lemma shr_iter_m (n : nat) (r : shr_record) :
  0 <= shr_m r -> shr_m (Nat.iter n shr_1 r) = shr_m r / 2 ^ Z.of_nat n.
Proof.
  intros Hm. induction n as [|n IH].
  - cbn. rewrite Z.div_1_r. reflexivity.
  - cbn [Nat.iter nat_rect].
    change (nat_rect _ r (fun _ => shr_1) n) with (Nat.iter n shr_1 r).
    assert (H2 : 0 < 2 ^ Z.of_nat n) by (apply Z.pow_pos_nonneg; lia).
    rewrite shr_1_m by (rewrite IH; apply Z.div_pos; lia).
    rewrite IH, Z.div_div by lia.
    rewrite Nat2Z.inj_succ, Z.pow_succ_r by lia.
    f_equal. lia.
Qed.

Lemma round_nearest_even_bounds (m : Z) (l : location) :
  m <= round_nearest_even m l <= m + 1.
Proof.
  destruct l as [|[ | | ]]; cbn [round_nearest_even]; try lia.
  destruct (Z.even m); lia.
Qed.

Lemma digits2_pos_bounds (p : positive) :
  2 ^ (Zpos (digits2_pos p) - 1) <= Zpos p < 2 ^ Zpos (digits2_pos p).
Proof.
  induction p as [p IH | p IH |]; cbn [digits2_pos].
  - rewrite Pos2Z.inj_succ.
    replace (Z.succ (Zpos (digits2_pos p)) - 1)
      with (Z.succ (Zpos (digits2_pos p) - 1)) by lia.
    rewrite !Z.pow_succ_r by lia. lia.
  - rewrite Pos2Z.inj_succ.
    replace (Z.succ (Zpos (digits2_pos p)) - 1)
      with (Z.succ (Zpos (digits2_pos p) - 1)) by lia.
    rewrite !Z.pow_succ_r by lia. lia.
  - cbn. lia.
Qed.

Lemma digits2_pos_unique (p : positive) (d : Z) :
  2 ^ (d - 1) <= Zpos p < 2 ^ d -> Zpos (digits2_pos p) = d.
Proof.
  intros [Hl Hu]. pose proof (digits2_pos_bounds p) as [Bl Bu].
  assert (0 < d).
  { destruct (Z.ltb_spec 0 d); [assumption|].
    assert (2 ^ d <= 2 ^ 0)
      by (destruct (Z.eq_dec d 0);
          [subst; lia | rewrite Z.pow_neg_r by lia; cbn; lia]).
    cbn in *. lia. }
  destruct (Z.lt_trichotomy (Zpos (digits2_pos p)) d) as [L | [E | G]];
    [|exact E|].
  - assert (2 ^ Zpos (digits2_pos p) <= 2 ^ (d - 1))
      by (apply Z.pow_le_mono_r; lia). lia.
  - assert (2 ^ d <= 2 ^ (Zpos (digits2_pos p) - 1))
      by (apply Z.pow_le_mono_r; lia). lia.
Qed.

Lemma digits_24 (m : Z) :
  8388608 <= m < 16777216 ->
  exists p, m = Zpos p /\ Zpos (digits2_pos p) = 24.
Proof.
  intros H. destruct m as [|p|p]; try lia. exists p. split; [reflexivity|].
  apply digits2_pos_unique.
  change (2 ^ (24 - 1)) with 8388608. change (2 ^ 24) with 16777216. lia.
Qed.

Lemma digits_le_24 (p : positive) :
  Zpos p < 16777216 -> Zpos (digits2_pos p) <= 24.
Proof.
  intros H. pose proof (digits2_pos_bounds p) as [Bl _].
  destruct (Z.le_gt_cases (Zpos (digits2_pos p)) 24) as [L|G]; [exact L|].
  assert (2 ^ 24 <= 2 ^ (Zpos (digits2_pos p) - 1))
    by (apply Z.pow_le_mono_r; lia).
  change (2 ^ 24) with 16777216 in *. lia.
Qed.

Lemma fexp32 (e : Z) : fexp prec emax e = Z.max (e - 24) (-149).
Proof. reflexivity. Qed.

Lemma valid_finite (s : bool) (m : positive) (e : Z) :
  valid (S754_finite s m e) = true ->
  fexp prec emax (Zpos (digits2_pos m) + e) = e /\ e <= 104.
Proof.
  unfold valid, valid_binary, bounded, canonical_mantissa.
  intros H. apply andb_true_iff in H. destruct H as [H1 H2].
  apply Z.eqb_eq in H1. apply Z.leb_le in H2.
  change (emax - prec) with 104 in H2. auto.
Qed.

(** First rounding stage when [k] bits are shifted out. *)
Lemma shr_fexp_shift (P : positive) (e : Z) (k : positive) :
  fexp prec emax (Zpos (digits2_pos P) + e) - e = Zpos k ->
  exists r, shr_fexp prec emax (Zpos P) e loc_Exact = (r, e + Zpos k)
            /\ shr_m r = Zpos P / 2 ^ Zpos k.
Proof.
  intros Hk. unfold shr_fexp. cbn [Zdigits2]. rewrite Hk.
  cbn [shr shr_record_of_loc].
  eexists. split; [reflexivity|].
  rewrite iter_pos_nat, shr_iter_m by (cbn; lia). cbn [shr_m].
  rewrite positive_nat_Z. reflexivity.
Qed.

Lemma shr_fexp_id (m e : Z) (l : location) :
  fexp prec emax (Zdigits2 m + e) - e <= 0 ->
  shr_fexp prec emax m e l = (shr_record_of_loc m l, e).
Proof.
  intros Hk. unfold shr_fexp.
  destruct (fexp prec emax (Zdigits2 m + e) - e); cbn [shr];
    try reflexivity. lia.
Qed.

Lemma binary_round_aux_shift (sx : bool) (P : positive) (e : Z)
    (k : positive) :
  fexp prec emax (Zpos (digits2_pos P) + e) - e = Zpos k ->
  exists m1, Zpos P / 2 ^ Zpos k <= m1 <= Zpos P / 2 ^ Zpos k + 1
    /\ binary_round_aux prec emax sx (Zpos P) e loc_Exact
       = round_finish sx m1 (e + Zpos k).
Proof.
  intros Hk. destruct (shr_fexp_shift P e k Hk) as (r & Er & Em).
  exists (round_nearest_even (shr_m r) (loc_of_shr_record r)). split.
  - rewrite <- Em. apply round_nearest_even_bounds.
  - unfold binary_round_aux, round_finish. rewrite Er. reflexivity.
Qed.

Lemma round_finish_canonical (sx : bool) (m1 : positive) (e1 : Z) :
  fexp prec emax (Zpos (digits2_pos m1) + e1) = e1 -> e1 <= 104 ->
  round_finish sx (Zpos m1) e1 = S754_finite sx m1 e1.
Proof.
  intros Hc He. unfold round_finish.
  rewrite shr_fexp_id by (cbn [Zdigits2]; rewrite Hc; lia).
  cbn [shr_record_of_loc shr_m]. change (emax - prec) with 104.
  destruct (Z.leb_spec e1 104); [reflexivity | lia].
Qed.

(** Rounding up to 2^24 costs one more shift. *)
Lemma round_finish_carry (sx : bool) (e1 : Z) :
  - 149 <= e1 + 1 <= 104 ->
  round_finish sx 16777216 e1 = S754_finite sx 8388608 (e1 + 1).
Proof.
  intros He. unfold round_finish.
  assert (Hk : fexp prec emax (Zpos (digits2_pos 16777216) + e1) - e1 = 1).
  { rewrite fexp32. cbn [digits2_pos Pos.succ]. lia. }
  destruct (shr_fexp_shift 16777216 e1 1 Hk) as (r & Er & Em).
  rewrite Er. rewrite Em. change (16777216 / 2 ^ 1) with 8388608.
  change (emax - prec) with 104.
  destruct (Z.leb_spec (e1 + 1) 104); [reflexivity | lia].
Qed.

Lemma digits2_pos_shift23 (m : positive) :
  Zpos (digits2_pos (8388608 * m)) = Zpos (digits2_pos m) + 23.
Proof. cbn [Pos.mul digits2_pos]. lia. Qed.

(** [x * 1.0f = x], bit for bit. *)
Lemma mul_one (x : float) : valid x = true -> mul x one = x.
Proof.
  destruct x as [s | s | | s m e]; intros Hv;
    try (destruct s; reflexivity); try reflexivity.
  destruct (valid_finite s m e Hv) as [Hc He].
  unfold mul, one. cbn [SFmul]. unfold binary_round_aux.
  rewrite Pos.mul_comm.
  assert (E1 : shr_fexp prec emax (Zpos (8388608 * m)) (e + -23) loc_Exact
               = ({| shr_m := Zpos m; shr_r := false; shr_s := false |}, e)).
  { unfold shr_fexp. cbn [Zdigits2]. rewrite digits2_pos_shift23.
    replace (Zpos (digits2_pos m) + 23 + (e + -23))
      with (Zpos (digits2_pos m) + e) by lia.
    rewrite Hc. replace (e - (e + -23)) with 23 by lia.
    cbn [shr shr_record_of_loc iter_pos Pos.mul shr_1 orb]. f_equal. lia. }
  rewrite E1. cbn [shr_m loc_of_shr_record round_nearest_even].
  rewrite shr_fexp_id by (cbn [Zdigits2]; rewrite Hc; lia).
  cbn [shr_record_of_loc shr_m].
  change (emax - prec) with 104.
  destruct (Z.leb_spec e 104); [|lia].
  destruct s; reflexivity.
Qed.

(** A normal number times a factor in [0.5, 0.9999] is a smaller number of
    the same sign. *)
Lemma mul_shrinks (s : bool) (mx mc : positive) (ex : Z) :
  valid (S754_finite s mx ex) = true ->
  Zpos (digits2_pos mx) = 24 ->
  8388608 <= Zpos mc <= 16775538 ->
  exists m' e',
    mul (S754_finite s mx ex) (S754_finite false mc (-24))
    = S754_finite s m' e'
    /\ (e' < ex \/ (e' = ex /\ Zpos m' < Zpos mx)).
Proof.
  intros Hv Hd Hc.
  destruct (valid_finite s mx ex Hv) as [Hcan He].
  rewrite Hd, fexp32 in Hcan.
  pose proof (digits2_pos_bounds mx) as Hmx. rewrite Hd in Hmx.
  change (2 ^ (24 - 1)) with 8388608 in Hmx.
  change (2 ^ 24) with 16777216 in Hmx.
  unfold mul. cbn [SFmul].
  replace (xorb s false) with s by (destruct s; reflexivity).
  set (P := (mx * mc)%positive).
  assert (HP : Zpos P = Zpos mx * Zpos mc) by reflexivity.
  assert (HPl : 70368744177664 <= Zpos P) by nia.
  assert (HPu : Zpos P < 281474976710656) by nia.
  pose proof (digits2_pos_bounds P) as [Bl Bu].
  assert (Hd47 : Zpos (digits2_pos P) = 47 \/ Zpos (digits2_pos P) = 48).
  { destruct (Z.le_gt_cases (Zpos (digits2_pos P)) 46) as [L|G].
    - assert (2 ^ Zpos (digits2_pos P) <= 2 ^ 46)
        by (apply Z.pow_le_mono_r; lia).
      change (2 ^ 46) with 70368744177664 in *. lia.
    - destruct (Z.le_gt_cases 49 (Zpos (digits2_pos P))) as [L'|G'].
      + assert (2 ^ 48 <= 2 ^ (Zpos (digits2_pos P) - 1))
          by (apply Z.pow_le_mono_r; lia).
        change (2 ^ 48) with 281474976710656 in *. lia.
      + lia. }
  destruct Hd47 as [D|D]; rewrite D in Bl, Bu.
  - (* the product has 47 bits *)
    change (2 ^ 47) with 140737488355328 in Bu.
    destruct (Z.eq_dec ex (-149)) as [Eex|Nex].
    + (* smallest exponent: 24 bits are shifted out *)
      assert (Hk : fexp prec emax (Zpos (digits2_pos P) + (ex + -24))
                   - (ex + -24) = 24)
        by (rewrite D, fexp32; lia).
      destruct (binary_round_aux_shift s P (ex + -24) 24 Hk)
        as (m1 & Hm1 & E).
      rewrite E. change (2 ^ 24) with 16777216 in Hm1.
      assert (Hq : 4194304 <= Zpos P / 16777216)
        by (apply Z.div_le_lower_bound; lia).
      assert (Hq' : Zpos P / 16777216 + 1 < Zpos mx).
      { assert (Zpos P / 16777216 < Zpos mx - 1); [|lia].
        apply Z.div_lt_upper_bound; nia. }
      destruct m1 as [|m1|m1]; try lia.
      exists m1, ex. split; [|right; split; [reflexivity | lia]].
      replace (ex + -24 + 24) with ex by lia.
      apply round_finish_canonical; [|lia].
      rewrite fexp32. pose proof (digits_le_24 m1). lia.
    + (* 23 bits are shifted out, the exponent drops by one *)
      assert (Hk : fexp prec emax (Zpos (digits2_pos P) + (ex + -24))
                   - (ex + -24) = 23)
        by (rewrite D, fexp32; lia).
      destruct (binary_round_aux_shift s P (ex + -24) 23 Hk)
        as (m1 & Hm1 & E).
      rewrite E. change (2 ^ 23) with 8388608 in Hm1.
      replace (ex + -24 + 23) with (ex - 1) by lia.
      assert (Hq : 8388608 <= Zpos P / 8388608)
        by (apply Z.div_le_lower_bound; lia).
      assert (Hq' : Zpos P / 8388608 < 16777216)
        by (apply Z.div_lt_upper_bound; lia).
      destruct (Z.eq_dec m1 16777216) as [Em1|Nm1].
      * subst m1. exists 8388608%positive, ex. split.
        -- rewrite round_finish_carry by lia. f_equal. lia.
        -- right. split; [reflexivity|].
           assert (Hge : 16777215 * 8388608 <= Zpos P).
           { assert (16777215 <= Zpos P / 8388608) by lia.
             pose proof (Z.mul_div_le (Zpos P) 8388608). lia. }
           nia.
      * destruct (digits_24 m1) as (p1 & -> & Hp1); [lia|].
        exists p1, (ex - 1). split; [|left; lia].
        apply round_finish_canonical; [|lia].
        rewrite Hp1, fexp32. lia.
  - (* the product has 48 bits: 24 are shifted out *)
    change (2 ^ (48 - 1)) with 140737488355328 in Bl.
    assert (Hk : fexp prec emax (Zpos (digits2_pos P) + (ex + -24))
                 - (ex + -24) = 24)
      by (rewrite D, fexp32; lia).
    destruct (binary_round_aux_shift s P (ex + -24) 24 Hk) as (m1 & Hm1 & E).
    rewrite E. change (2 ^ 24) with 16777216 in Hm1.
    replace (ex + -24 + 24) with ex by lia.
    assert (Hq : 8388608 <= Zpos P / 16777216)
      by (apply Z.div_le_lower_bound; lia).
    assert (Hq' : Zpos P / 16777216 + 1 < Zpos mx).
    { assert (Zpos P / 16777216 < Zpos mx - 1); [|lia].
      apply Z.div_lt_upper_bound; nia. }
    destruct (digits_24 m1) as (p1 & -> & Hp1); [lia|].
    exists p1, ex. split; [|right; split; [reflexivity | lia]].
    apply round_finish_canonical; [|lia].
    rewrite Hp1, fexp32. lia.
Qed.

(** A subnormal number times such a factor is zero or a subnormal number
    that is not larger. *)
Lemma mul_subnormal (s : bool) (mx mc : positive) (ex : Z) :
  valid (S754_finite s mx ex) = true ->
  Zpos (digits2_pos mx) < 24 ->
  8388608 <= Zpos mc <= 16775538 ->
  mul (S754_finite s mx ex) (S754_finite false mc (-24)) = S754_zero s
  \/ exists m',
       mul (S754_finite s mx ex) (S754_finite false mc (-24))
       = S754_finite s m' ex
       /\ Zpos m' <= Zpos mx.
Proof.
  intros Hv Hd Hc.
  destruct (valid_finite s mx ex Hv) as [Hcan He].
  rewrite fexp32 in Hcan.
  assert (Eex : ex = -149) by lia. subst ex.
  pose proof (digits2_pos_bounds mx) as [_ Hmx].
  assert (Hmx' : Zpos mx < 8388608).
  { assert (2 ^ Zpos (digits2_pos mx) <= 2 ^ 23)
      by (apply Z.pow_le_mono_r; lia).
    change (2 ^ 23) with 8388608 in *. lia. }
  unfold mul. cbn [SFmul].
  replace (xorb s false) with s by (destruct s; reflexivity).
  set (P := (mx * mc)%positive).
  assert (HP : Zpos P = Zpos mx * Zpos mc) by reflexivity.
  assert (HPu : Zpos P < 140737488355328) by nia.
  pose proof (digits2_pos_bounds P) as [Bl Bu].
  assert (HdP : Zpos (digits2_pos P) <= 47).
  { destruct (Z.le_gt_cases (Zpos (digits2_pos P)) 47) as [L|G]; [exact L|].
    assert (2 ^ 47 <= 2 ^ (Zpos (digits2_pos P) - 1))
      by (apply Z.pow_le_mono_r; lia).
    change (2 ^ 47) with 140737488355328 in *. lia. }
  assert (Hk : fexp prec emax (Zpos (digits2_pos P) + (-149 + -24))
               - (-149 + -24) = 24)
    by (rewrite fexp32; lia).
  destruct (binary_round_aux_shift s P (-149 + -24) 24 Hk) as (m1 & Hm1 & E).
  rewrite E. change (2 ^ 24) with 16777216 in Hm1.
  change (-149 + -24 + 24) with (-149).
  assert (Hq : 0 <= Zpos P / 16777216) by (apply Z.div_pos; lia).
  assert (Hq' : Zpos P / 16777216 < Zpos mx)
    by (apply Z.div_lt_upper_bound; nia).
  destruct m1 as [|m1|m1]; try lia.
  - left. reflexivity.
  - right. exists m1. split; [|lia].
    apply round_finish_canonical; [|lia].
    rewrite fexp32. pose proof (digits_le_24 m1). lia.
Qed.

(** No valid number has more than 24 mantissa bits. *)
Lemma valid_digits (s : bool) (m : positive) (e : Z) :
  valid (S754_finite s m e) = true -> Zpos (digits2_pos m) <= 24.
Proof.
  intros Hv. destruct (valid_finite s m e Hv) as [Hcan _].
  rewrite fexp32 in Hcan. lia.
Qed.

(** Multiplying by such a factor never enlarges the magnitude. *)
Lemma mul_not_larger (x : float) (mc : positive) :
  valid x = true -> 8388608 <= Zpos mc <= 16775538 ->
  ltb (fabs x) (fabs (mul x (S754_finite false mc (-24)))) = false.
Proof.
  intros Hv Hc. destruct x as [s | s | | s mx ex]; try reflexivity.
  pose proof (valid_digits s mx ex Hv) as Hle.
  destruct (Z.eq_dec (Zpos (digits2_pos mx)) 24) as [Hd|Hd].
  - destruct (mul_shrinks s mx mc ex Hv Hd Hc) as (m' & e' & Em & Hlt).
    rewrite Em. unfold ltb, fabs, SFltb. cbn [SFabs SFcompare].
    destruct Hlt as [Hlt | [-> Hlt]].
    + apply Z.lt_gt, Z.compare_gt_iff in Hlt.
      rewrite (proj2 (Z.compare_gt_iff ex e') Hlt). reflexivity.
    + rewrite Z.compare_refl.
      change (Pos.compare_cont Eq mx m') with (Pos.compare mx m').
      rewrite (proj2 (Pos.compare_gt_iff mx m')) by lia. reflexivity.
  - destruct (mul_subnormal s mx mc ex Hv) as [Ez | (m' & Em & Hm')];
      [lia | exact Hc | |].
    + rewrite Ez. reflexivity.
    + rewrite Em. unfold ltb, fabs, SFltb. cbn [SFabs SFcompare].
      rewrite Z.compare_refl.
      change (Pos.compare_cont Eq mx m') with (Pos.compare mx m').
      destruct (Pos.compare_spec mx m'); try reflexivity. lia.
Qed.

(** ** The decay step *)

Lemma forallb_range (f : Z -> bool) (n : nat) :
  forallb f (map Z.of_nat (seq 1 n)) = true ->
  forall k, 1 <= k <= Z.of_nat n -> f k = true.
Proof.
  intros H k Hk. rewrite forallb_forall in H. apply H.
  apply in_map_iff. exists (Z.to_nat k). split; [lia|].
  apply in_seq. lia.
Qed.

Lemma decay_factor_range (k : Z) :
  1 <= k <= 127 -> decay_factor_ok k = true.
Proof. apply (forallb_range decay_factor_ok 127). vm_compute. reflexivity. Qed.

Lemma decay_factor_shape (cfg : CONFIG_STRUCT) :
  1 <= AccVertFilter cfg <= 127 ->
  exists mc, decay_factor cfg = S754_finite false mc (-24)
             /\ 8388608 <= Zpos mc <= 16775538.
Proof.
  intros Hk. pose proof (decay_factor_range _ Hk) as H.
  unfold decay_factor_ok in H. unfold decay_factor.
  destruct (sub (of_Z 1) (div (of_Z (AccVertFilter cfg)) (of_Z 10000)))
    as [ | | | [|] mc [|e|e]]; try discriminate H.
  destruct (Pos.eq_dec e 24) as [->|Ne].
  - exists mc. split; [reflexivity|].
    apply andb_true_iff in H. destruct H as [H1 H2].
    apply Z.leb_le in H1. apply Z.leb_le in H2. lia.
  - exfalso. revert H.
    do 5 (destruct e as [e|e|]; try discriminate); congruence.
Qed.

(** Such a factor turns no number into a NaN. *)
Lemma mul_is_nan (x : float) (mc : positive) :
  valid x = true -> 8388608 <= Zpos mc <= 16775538 ->
  is_nan (mul x (S754_finite false mc (-24))) = is_nan x.
Proof.
  intros Hv Hc. destruct x as [s | s | | s mx ex]; try reflexivity.
  pose proof (valid_digits s mx ex Hv) as Hle.
  destruct (Z.eq_dec (Zpos (digits2_pos mx)) 24) as [Hd|Hd].
  - destruct (mul_shrinks s mx mc ex Hv Hd Hc) as (m' & e' & Em & _).
    rewrite Em. reflexivity.
  - destruct (mul_subnormal s mx mc ex Hv) as [Ez | (m' & Em & _)];
      [lia | exact Hc | rewrite Ez | rewrite Em]; reflexivity.
Qed.

(** A zero times such a factor is the same zero. *)
Lemma mul_zero_l (sg : bool) (mc : positive) (e : Z) :
  mul (S754_zero sg) (S754_finite false mc e) = S754_zero sg.
Proof. destruct sg; reflexivity. Qed.

(** C7, as the code has it.  On a valid binary32 value the decay step
    [x * (1 - AccVertFilter / 10000)] returns [x] itself when
    [AccVertFilter] is 0.  For [AccVertFilter] in 1..127 it never returns a
    value of larger magnitude and never makes a NaN of a number; it returns
    a value of strictly smaller magnitude when [x] is a normal number; and
    it returns a zero as the zero it was. *)
Theorem decay_step (cfg : CONFIG_STRUCT) (x : float) :
  valid x = true ->
  (AccVertFilter cfg = 0 -> vert_decay cfg x = x)
  /\ (1 <= AccVertFilter cfg <= 127 ->
      ltb (fabs x) (fabs (vert_decay cfg x)) = false
      /\ is_nan (vert_decay cfg x) = is_nan x)
  /\ (1 <= AccVertFilter cfg <= 127 -> normal x = true ->
      ltb (fabs (vert_decay cfg x)) (fabs x) = true)
  /\ (1 <= AccVertFilter cfg <= 127 ->
      forall sg, x = S754_zero sg -> vert_decay cfg x = x).
Proof.
  intros Hv. split; [|split; [|split]].
  - intros H0. unfold vert_decay, decay_factor. rewrite H0.
    change (sub (of_Z 1) (div (of_Z 0) (of_Z 10000))) with one.
    apply mul_one, Hv.
  - intros Hk. destruct (decay_factor_shape cfg Hk) as (mc & Ef & Hmc).
    unfold vert_decay. rewrite Ef. split.
    + apply mul_not_larger; assumption.
    + apply mul_is_nan; assumption.
  - intros Hk Hn. destruct x as [s | s | | s mx ex]; try discriminate Hn.
    cbn [normal] in Hn. apply Z.eqb_eq in Hn. change prec with 24 in Hn.
    destruct (decay_factor_shape cfg Hk) as (mc & Ef & Hmc).
    destruct (mul_shrinks s mx mc ex Hv Hn Hmc) as (m' & e' & Em & Hlt).
    unfold vert_decay. rewrite Ef, Em.
    unfold ltb, fabs, SFltb. cbn [SFabs SFcompare].
    destruct Hlt as [Hlt | [-> Hlt]].
    + apply Z.compare_lt_iff in Hlt. rewrite Hlt. reflexivity.
    + rewrite Z.compare_refl.
      change (Pos.compare_cont Eq m' mx) with (Pos.compare m' mx).
      apply Pos.compare_lt_iff in Hlt. rewrite Hlt. reflexivity.
  - intros Hk sg ->. destruct (decay_factor_shape cfg Hk) as (mc & Ef & _).
    unfold vert_decay. rewrite Ef. apply mul_zero_l.
Qed.

Lemma decay_step_witness :
  let cfg0 := sample_config fc_zero 0 0 0 0 in
  let cfg50 := sample_config fc_zero 0 50 0 0 in
  vert_decay cfg0 (of_Z 1000) = of_Z 1000
  /\ (ltb (fabs (of_Z (- 1000))) (fabs (vert_decay cfg50 (of_Z (- 1000))))
      = false
      /\ is_nan (vert_decay cfg50 (of_Z (- 1000))) = is_nan (of_Z (- 1000)))
  /\ ltb (fabs (vert_decay cfg50 (of_Z (- 1000)))) (fabs (of_Z (- 1000)))
     = true
  /\ vert_decay cfg50 (S754_zero true) = S754_zero true.
Proof.
  cbv zeta. split; [|split; [|split]].
  - apply (decay_step (sample_config fc_zero 0 0 0 0) (of_Z 1000));
      reflexivity.
  - apply (decay_step (sample_config fc_zero 0 50 0 0) (of_Z (- 1000))).
    + reflexivity.
    + cbn. lia.
  - apply (decay_step (sample_config fc_zero 0 50 0 0) (of_Z (- 1000))).
    + reflexivity.
    + cbn. lia.
    + reflexivity.
  - apply (decay_step (sample_config fc_zero 0 50 0 0) (S754_zero true))
      with (sg := true).
    + reflexivity.
    + cbn. lia.
    + reflexivity.
Defined.

(** C7 as stated fails: with a non-zero setting, a zero I-term stays zero
    and the smallest subnormal stays what it is; neither magnitude gets
    strictly smaller. *)
Lemma decay_not_strict :
  let cfg := sample_config fc_zero 0 1 0 0 in
  let tiny := S754_finite false 1 (-149) in
  AccVertFilter cfg <> 0
  /\ vert_decay cfg (S754_zero false) = S754_zero false
  /\ ltb (fabs (vert_decay cfg (S754_zero false))) (fabs (S754_zero false))
     = false
  /\ vert_decay cfg tiny = tiny
  /\ ltb (fabs (vert_decay cfg tiny)) (fabs tiny) = false.
Proof.
  cbv zeta. split; [|repeat split; vm_compute; reflexivity].
  cbn. discriminate.
Qed.

(** ** Noise estimate *)

Section Noise.

Variable tg : Target.
Variable cfg : CONFIG_STRUCT.

(** The residual the tick computes, as left in the global [fsample]. *)
Lemma Sensor_noise_globals (period : Z) (inp : Inputs) (s : State) :
  GyroAvgNoise (Sensor_PID tg cfg period inp s)
  = GyroAvgNoise (Sensor_noise tg cfg inp s)
  /\ fsample (Sensor_PID tg cfg period inp s)
     = fsample (Sensor_noise tg cfg inp s).
Proof. split; project; reflexivity. Qed.

(** What the code computes: the residual goes through [int abs(int)]. *)
Lemma Sensor_noise_estimate (period : Z) (inp : Inputs) (s : State) :
  Vibration cfg = ON tg ->
  let s' := Sensor_PID tg cfg period inp s in
  let n := div (add (mul (GyroAvgNoise s) (of_Z 99))
                    (of_Z (c_abs (to_int tg 16 (fsample s')))))
               (of_Z 100) in
  GyroAvgNoise s' = (if ltb (of_Z 999) n then of_Z 999 else n)
  /\ ltb (of_Z 999) (GyroAvgNoise s') = false.
Proof.
  intros Hon. cbv zeta.
  destruct (Sensor_noise_globals period inp s) as [-> ->].
  unfold Sensor_noise. rewrite Hon, Z.eqb_refl.
  cbn [GyroAvgNoise fsample set_noise].
  split; [reflexivity|].
  match goal with |- context [if ltb ?a ?b then _ else _] =>
    destruct (ltb a b) eqn:E end.
  - reflexivity.
  - exact E.
Qed.

End Noise.

(** C9, at a failing input.  From the start-up state with vibration display
    on and a raw roll gyro reading of 1, the high-pass residual is about
    0.7487; [abs] is the integer one of <stdlib.h>, the residual is
    truncated to 0 on its way in, and the estimate stays 0, where
    (99 * 0 + |0.7487|) / 100 is about 0.0075. *)
Theorem noise_residual_truncated :
  let cfg := sample_config fc_zero (ON sample_target) 0 0 0 in
  let s' := Sensor_PID sample_target cfg 3571
              (sample_inputs 1 (of_Z 0) 1) init_state in
  fsample s' = S754_finite false 12560642 (-24)
  /\ GyroAvgNoise s' = S754_zero false
  /\ noise_estimate_spec (GyroAvgNoise init_state) (fsample s')
     = S754_finite false 16077622 (-31).
Proof. cbv zeta. repeat split; vm_compute; reflexivity. Qed.


(** * Further properties of the two entry points *)

(** ** Integers through [float] and back *)

Lemma iter_xO_value (p k : positive) :
  Zpos (Pos.iter xO p k) = Zpos p * 2 ^ Zpos k.
Proof.
  induction k as [|k IH] using Pos.peano_ind.
  - cbn. lia.
  - rewrite Pos.iter_succ, Pos2Z.inj_succ, Z.pow_succ_r by lia.
    rewrite Pos2Z.inj_xO, IH. lia.
Qed.

Lemma iter_xO_digits (p k : positive) :
  Zpos (digits2_pos (Pos.iter xO p k)) = Zpos (digits2_pos p) + Zpos k.
Proof.
  induction k as [|k IH] using Pos.peano_ind.
  - cbn [Pos.iter digits2_pos]. lia.
  - rewrite Pos.iter_succ. cbn [digits2_pos]. rewrite Pos2Z.inj_succ, IH. lia.
Qed.

Lemma binary_round_aux_canonical (sx : bool) (m : positive) (e : Z) :
  fexp prec emax (Zpos (digits2_pos m) + e) = e -> e <= 104 ->
  binary_round_aux prec emax sx (Zpos m) e loc_Exact = S754_finite sx m e.
Proof.
  intros Hc He. unfold binary_round_aux.
  rewrite shr_fexp_id by (cbn [Zdigits2]; rewrite Hc; lia).
  cbn [shr_record_of_loc shr_m loc_of_shr_record round_nearest_even].
  apply (round_finish_canonical sx m e Hc He).
Qed.

(** A mantissa below 2^24 is only shifted left, never rounded. *)
Lemma binary_round_exact (sx : bool) (p : positive) :
  Zpos p < 16777216 ->
  exists m e, binary_round prec emax sx p 0 = S754_finite sx m e
    /\ valid (S754_finite sx m e) = true
    /\ Z.shiftl (Zpos m) e = Zpos p.
Proof.
  intros Hp. pose proof (digits_le_24 p Hp) as Hd.
  unfold binary_round.
  rewrite Z.add_0_r, fexp32.
  replace (Z.max (Zpos (digits2_pos p) - 24) (-149))
    with (Zpos (digits2_pos p) - 24) by lia.
  unfold shl_align. rewrite Z.sub_0_r.
  destruct (Zpos (digits2_pos p) - 24) as [|k|k] eqn:Ek; try lia.
  - exists p, 0.
    rewrite binary_round_aux_canonical by (rewrite ?fexp32; lia).
    repeat split.
    unfold valid, valid_binary, bounded, canonical_mantissa.
    rewrite fexp32.
    apply andb_true_iff. split; [apply Z.eqb_eq; lia | reflexivity].
  - exists (Pos.iter xO p k), (Zneg k).
    pose proof (iter_xO_digits p k) as Hdk.
    rewrite binary_round_aux_canonical by (rewrite ?Hdk, ?fexp32; lia).
    repeat split.
    + unfold valid, valid_binary, bounded, canonical_mantissa.
      rewrite Hdk, fexp32.
      apply andb_true_iff.
      split; [apply Z.eqb_eq; lia
             | apply Z.leb_le; change (emax - prec) with 104; lia].
    + rewrite iter_xO_value. change (Zneg k) with (- Zpos k).
      rewrite Z.shiftl_opp_r, Z.shiftr_div_pow2 by lia.
      apply Z.div_mul. apply Z.pow_nonzero; lia.
Qed.

Lemma of_Z_exact (z : Z) :
  - 16777216 < z < 16777216 ->
  trunc (of_Z z) = Some z /\ valid (of_Z z) = true.
Proof.
  intros Hz. destruct z as [|p|p].
  - split; reflexivity.
  - destruct (binary_round_exact false p) as (m & e & E & Hv & Ht); [lia|].
    unfold of_Z. cbn [binary_normalize]. rewrite E. split; [|exact Hv].
    cbn [trunc]. rewrite Ht. reflexivity.
  - destruct (binary_round_exact true p) as (m & e & E & Hv & Ht); [lia|].
    unfold of_Z. cbn [binary_normalize]. rewrite E. split; [|exact Hv].
    cbn [trunc]. rewrite Ht. reflexivity.
Qed.

Lemma to_int_of_Z (tg : Target) (w z : Z) :
  - 16777216 < z < 16777216 -> fitsb w z = true ->
  to_int tg w (of_Z z) = z.
Proof.
  intros Hz Hf. unfold to_int. destruct (of_Z_exact z Hz) as [-> _].
  rewrite Hf. reflexivity.
Qed.

Lemma fitsb16 (z : Z) : - 32768 <= z <= 32767 -> fitsb 16 z = true.
Proof.
  intros H. unfold fitsb. change (2 ^ (16 - 1)) with 32768.
  apply andb_true_iff. split; [apply Z.leb_le | apply Z.ltb_lt]; lia.
Qed.

Lemma fitsb32 (z : Z) :
  - 2147483648 <= z <= 2147483647 -> fitsb 32 z = true.
Proof.
  intros H. unfold fitsb. change (2 ^ (32 - 1)) with 2147483648.
  apply andb_true_iff. split; [apply Z.leb_le | apply Z.ltb_lt]; lia.
Qed.

(** The same with the shape of the result: a full 24-bit mantissa. *)
Lemma binary_round_normal (sx : bool) (p : positive) :
  Zpos p < 16777216 ->
  exists m e, binary_round prec emax sx p 0 = S754_finite sx m e
    /\ Zpos (digits2_pos m) = 24 /\ - 23 <= e <= 0
    /\ Zpos m = Zpos p * 2 ^ (- e).
Proof.
  intros Hp. pose proof (digits_le_24 p Hp) as Hd.
  unfold binary_round.
  rewrite Z.add_0_r, fexp32.
  replace (Z.max (Zpos (digits2_pos p) - 24) (-149))
    with (Zpos (digits2_pos p) - 24) by lia.
  unfold shl_align. rewrite Z.sub_0_r.
  destruct (Zpos (digits2_pos p) - 24) as [|k|k] eqn:Ek; try lia.
  - exists p, 0.
    rewrite binary_round_aux_canonical by (rewrite ?fexp32; lia).
    repeat split; try lia.
  - exists (Pos.iter xO p k), (Zneg k).
    pose proof (iter_xO_digits p k) as Hdk.
    rewrite binary_round_aux_canonical by (rewrite ?Hdk, ?fexp32; lia).
    repeat split; try lia.
    rewrite iter_xO_value. reflexivity.
Qed.

(** Multiplying a normal number by [2^k] only moves the exponent. *)
Lemma mul_pow2 (s : bool) (m : positive) (e k : Z) :
  Zpos (digits2_pos m) = 24 -> - 149 <= e -> 0 <= k -> e + k <= 104 ->
  mul (S754_finite s m e) (S754_finite false 8388608 (k - 23))
  = S754_finite s m (e + k).
Proof.
  intros Hd He Hk Hek.
  unfold mul. cbn [SFmul]. unfold binary_round_aux.
  rewrite Pos.mul_comm.
  assert (E1 : shr_fexp prec emax (Zpos (8388608 * m)) (e + (k - 23))
                        loc_Exact
               = ({| shr_m := Zpos m; shr_r := false; shr_s := false |},
                  e + k)).
  { unfold shr_fexp. cbn [Zdigits2].
    rewrite digits2_pos_shift23, Hd, fexp32.
    replace (Z.max (24 + 23 + (e + (k - 23)) - 24) (-149) - (e + (k - 23)))
      with 23 by lia.
    cbn [shr shr_record_of_loc iter_pos Pos.mul shr_1 orb]. f_equal. lia. }
  rewrite E1. cbn [shr_m loc_of_shr_record round_nearest_even].
  rewrite shr_fexp_id by (cbn [Zdigits2]; rewrite Hd, fexp32; lia).
  cbn [shr_record_of_loc shr_m].
  change (emax - prec) with 104.
  destruct (Z.leb_spec (e + k) 104); [|lia].
  destruct s; reflexivity.
Qed.

Lemma shiftl_scaled (a j k : Z) :
  0 <= j -> 0 <= k -> Z.shiftl (a * 2 ^ j) (k - j) = a * 2 ^ k.
Proof.
  intros Hj Hk. destruct (Z.le_gt_cases j k) as [L|G].
  - rewrite Z.shiftl_mul_pow2 by lia.
    rewrite <- Z.mul_assoc, <- Z.pow_add_r by lia.
    f_equal. f_equal. lia.
  - replace (k - j) with (- (j - k)) by lia.
    rewrite Z.shiftl_opp_r, Z.shiftr_div_pow2 by lia.
    replace (2 ^ j) with (2 ^ k * 2 ^ (j - k))
      by (rewrite <- Z.pow_add_r by lia; f_equal; lia).
    rewrite Z.mul_assoc. apply Z.div_mul. apply Z.pow_nonzero; lia.
Qed.

Lemma forallb_range0 (f : Z -> bool) (n : nat) :
  forallb f (map Z.of_nat (seq 0 n)) = true ->
  forall k, 0 <= k < Z.of_nat n -> f k = true.
Proof.
  intros H k Hk. rewrite forallb_forall in H. apply H.
  apply in_map_iff. exists (Z.to_nat k). split; [lia|].
  apply in_seq. lia.
Qed.

Lemma pow2_factor (k : Z) :
  0 <= k <= 15 ->
  div (of_Z (uint32 (3571 * 2 ^ k))) STANDARDLOOP
  = S754_finite false 8388608 (k - 23).
Proof.
  intros Hk.
  assert (H : pow2_factor_ok k = true).
  { apply (forallb_range0 pow2_factor_ok 16); [vm_compute; reflexivity | lia]. }
  unfold pow2_factor_ok in H.
  destruct (div (of_Z (uint32 (3571 * 2 ^ k))) STANDARDLOOP)
    as [ | | | [|] m e]; try discriminate H.
  destruct (Pos.eq_dec m 8388608) as [-> | Hne].
  - apply Z.eqb_eq in H. subst e. reflexivity.
  - exfalso. revert H.
    do 24 (destruct m as [m|m|]; try discriminate). congruence.
Qed.

(** An [int16_t] value times zero is zero. *)
Lemma mul_of_Z_zero (x : Z) :
  - 32768 <= x <= 32767 ->
  trunc (mul (of_Z x) (S754_zero false)) = Some 0.
Proof.
  intros Hx. destruct x as [|p|p].
  - reflexivity.
  - destruct (binary_round_normal false p) as (m & e & E & _); [lia|].
    unfold of_Z. cbn [binary_normalize]. rewrite E. reflexivity.
  - destruct (binary_round_normal true p) as (m & e & E & _); [lia|].
    unfold of_Z. cbn [binary_normalize]. rewrite E. reflexivity.
Qed.

(** ** Comparisons *)

Lemma ltb_irrefl (x : float) : ltb x x = false.
Proof.
  unfold ltb, SFltb.
  destruct x as [s | s | | s m e]; cbn [SFcompare]; try reflexivity.
  - destruct s; reflexivity.
  - rewrite Z.compare_refl.
    change (Pos.compare_cont Eq m m) with (Pos.compare m m).
    rewrite Pos.compare_refl. destruct s; reflexivity.
Qed.

Lemma ltb_nan_r (x : float) : ltb x S754_nan = false.
Proof. destruct x; reflexivity. Qed.

Lemma not_negative_opp (t : float) :
  not_negative t = true -> ltb t (opp t) = false.
Proof.
  destruct t as [[|] | [|] | | [|] m e]; intros H; try discriminate H;
    reflexivity.
Qed.

Lemma binary_round_aux_sign (m e : Z) (l : location) :
  not_negative (binary_round_aux prec emax false m e l) = true.
Proof.
  unfold binary_round_aux.
  destruct (shr_fexp prec emax m e l) as [mrs' e'].
  destruct (shr_fexp prec emax _ e' loc_Exact) as [mrs'' e''].
  destruct (shr_m mrs''); try reflexivity.
  destruct (e'' <=? emax - prec); reflexivity.
Qed.

Lemma of_Z_not_negative (c : Z) : 0 <= c -> not_negative (of_Z c) = true.
Proof.
  intros Hc. destruct c as [|p|p]; try lia; try reflexivity.
  unfold of_Z. cbn [binary_normalize]. unfold binary_round.
  destruct (shl_align p 0 _) as [mz ez]. apply binary_round_aux_sign.
Qed.

Lemma constrain_vert_within (c : Z) (x : float) :
  0 <= c -> vert_within c (constrain_vert c x).
Proof.
  intros Hc. pose proof (not_negative_opp _ (of_Z_not_negative c Hc)) as Hopp.
  unfold vert_within, constrain_vert.
  destruct (ltb (of_Z c) x) eqn:E1.
  - rewrite Hopp. split; [apply ltb_irrefl | exact Hopp].
  - destruct (ltb x (opp (of_Z c))) eqn:E2.
    + split; [exact Hopp | apply ltb_irrefl].
    + split; assumption.
Qed.

Lemma vert_within_zero (c : Z) : 0 <= c -> vert_within c (S754_zero false).
Proof.
  intros Hc. pose proof (of_Z_not_negative c Hc) as Hn.
  unfold vert_within.
  destruct (of_Z c) as [[|] | [|] | | [|] m e]; try discriminate Hn;
    split; reflexivity.
Qed.

(** ** Invariants of call sequences *)

Section Runs.

Variable tg : Target.
Variable cfg : CONFIG_STRUCT.

Lemma run_app (l1 l2 : list Call) (s : State) :
  run tg cfg (l1 ++ l2) s = run tg cfg l2 (run tg cfg l1 s).
Proof. unfold run. apply fold_left_app. Qed.

Lemma run_cons (c : Call) (l : list Call) (s : State) :
  run tg cfg (c :: l) s = run tg cfg l (step tg cfg s c).
Proof. reflexivity. Qed.

(** A property kept by every call holds after every sequence of calls. *)
Lemma run_invariant (P : State -> Prop) :
  (forall s c, P s -> P (step tg cfg s c)) ->
  forall calls s, P s -> P (run tg cfg calls s).
Proof.
  intros Hstep calls. unfold run.
  induction calls as [|c calls IH]; intros s Hs; cbn [fold_left].
  - exact Hs.
  - apply IH, Hstep, Hs.
Qed.

(** The same for a property only some calls can disturb. *)
Lemma run_invariant_except (P : State -> Prop) (bad : Call -> bool) :
  (forall s c, bad c = false -> P s -> P (step tg cfg s c)) ->
  forall calls s, forallb (fun c => negb (bad c)) calls = true ->
                  P s -> P (run tg cfg calls s).
Proof.
  intros Hstep calls. unfold run.
  induction calls as [|c calls IH]; intros s Hall Hs; cbn [fold_left].
  - exact Hs.
  - cbn [forallb] in Hall. apply andb_true_iff in Hall.
    destruct Hall as [Hc Hall]. apply negb_true_iff in Hc.
    apply IH; [exact Hall|]. apply Hstep; assumption.
Qed.

Lemma Calc_frame (inp : Inputs) (s : State) :
  let s' := Calculate_PID tg cfg inp s in
  IntegralAccVertf s' = IntegralAccVertf s /\ gyroSmooth s' = gyroSmooth s
  /\ GyroAvgNoise s' = GyroAvgNoise s /\ HPF_V s' = HPF_V s
  /\ HPF_T s' = HPF_T s /\ HPF_I s' = HPF_I s /\ fsample s' = fsample s.
Proof. cbv zeta. repeat split; project; reflexivity. Qed.

Lemma ReadGyros_frame (g : Axis -> Z) (s : State) :
  let s' := step tg cfg s (ReadGyros g) in
  PID_Gyros s' = PID_Gyros s /\ PID_ACCs s' = PID_ACCs s
  /\ IntegralGyro s' = IntegralGyro s
  /\ IntegralAccVertf s' = IntegralAccVertf s
  /\ gyroSmooth s' = gyroSmooth s /\ PID_AvgGyro s' = PID_AvgGyro s
  /\ GyroAvgNoise s' = GyroAvgNoise s /\ HPF_V s' = HPF_V s
  /\ HPF_T s' = HPF_T s /\ HPF_I s' = HPF_I s /\ fsample s' = fsample s.
Proof. cbv zeta. repeat split; project; reflexivity. Qed.

Lemma ReadGyros_gyroADC (g : Axis -> Z) (s : State) (a : Axis) :
  gyroADC (step tg cfg s (ReadGyros g)) a = int16 (g a).
Proof. destruct a; project; reflexivity. Qed.

Lemma Sensor_outputs (period : Z) (inp : Inputs) (s : State) :
  PID_Gyros (Sensor_PID tg cfg period inp s) = PID_Gyros s
  /\ PID_ACCs (Sensor_PID tg cfg period inp s) = PID_ACCs s.
Proof.
  assert (E : PID_Gyros (Sensor_noise tg cfg inp s) = PID_Gyros s
              /\ PID_ACCs (Sensor_noise tg cfg inp s) = PID_ACCs s).
  { unfold Sensor_noise. destruct (Vibration cfg =? ON tg); split; reflexivity. }
  destruct E as [E1 E2]. rewrite <- E1, <- E2.
  split; project; reflexivity.
Qed.

End Runs.


(** ** The Z-acc I-term *)

(** X1. In every reachable state the Z-acc I-term of a profile is neither
    above [+Raw_I_Constrain[p][ZED]] nor below its negation, for a
    non-negative limit. *)
Theorem vertical_clamp_invariant (tg : Target) (cfg : CONFIG_STRUCT)
    (calls : list Call) (p : Profile) :
  0 <= Raw_I_Constrain cfg p ZED ->
  vert_within (Raw_I_Constrain cfg p ZED)
              (IntegralAccVertf (run tg cfg calls init_state) p).
Proof.
  intros Hc.
  apply (run_invariant tg cfg
           (fun s => vert_within (Raw_I_Constrain cfg p ZED)
                                 (IntegralAccVertf s p))).
  - intros s c Hs. destruct c as [period inp | inp | g]; cbn [step].
    + rewrite Sensor_IntegralAccVertf. apply constrain_vert_within, Hc.
    + destruct (Calc_frame tg cfg inp s) as [E _]. rewrite E. exact Hs.
    + exact Hs.
  - apply vert_within_zero, Hc.
Qed.

Lemma vertical_clamp_invariant_witness :
  vert_within 50
    (IntegralAccVertf
       (run sample_target (sample_config fc_zero 0 3 50 10)
            [Sampler 3571 (sample_inputs 0 (of_Z 100) 1);
             Combiner (sample_inputs 0 (of_Z 100) 1);
             Sampler 3571 (sample_inputs 0 (of_Z (- 400)) 1)]
            init_state) P2).
Proof.
  apply (vertical_clamp_invariant sample_target
           (sample_config fc_zero 0 3 50 10)).
  cbn. lia.
Defined.

Lemma add_nan_r (x : float) : add x S754_nan = S754_nan.
Proof. destruct x; reflexivity. Qed.

Lemma constrain_vert_nan (c : Z) : constrain_vert c S754_nan = S754_nan.
Proof.
  unfold constrain_vert. rewrite ltb_nan_r.
  change (ltb S754_nan (opp (of_Z c))) with false. reflexivity.
Qed.

(** X2. A NaN in [accVertf] is never recovered from: the tick that reads it
    leaves both Z-acc I-terms NaN, the clamp lets a NaN through, and every
    later tick keeps it, whatever the later inputs are. *)
Theorem vertical_nan_latches (tg : Target) (cfg : CONFIG_STRUCT)
    (period : Z) (inp : Inputs) (calls : list Call) (s : State)
    (p : Profile) :
  accVertf inp = S754_nan ->
  IntegralAccVertf (run tg cfg (Sampler period inp :: calls) s) p = S754_nan.
Proof.
  intros Hnan. unfold run. cbn [fold_left].
  apply (run_invariant tg cfg (fun s => IntegralAccVertf s p = S754_nan)).
  - intros s0 c Hs. destruct c as [period' inp' | inp' | g]; cbn [step].
    + rewrite Sensor_IntegralAccVertf, Hs. apply constrain_vert_nan.
    + destruct (Calc_frame tg cfg inp' s0) as [E _]. rewrite E. exact Hs.
    + exact Hs.
  - cbn [step]. rewrite Sensor_IntegralAccVertf, Hnan, add_nan_r.
    apply constrain_vert_nan.
Qed.

Lemma vertical_nan_latches_witness :
  IntegralAccVertf
    (run sample_target (sample_config fc_zero 0 3 50 10)
         [Sampler 3571 (sample_inputs 0 S754_nan 1);
          Sampler 3571 (sample_inputs 0 (of_Z 5) 1);
          Combiner (sample_inputs 0 (of_Z 5) 2)]
         init_state) P1
  = S754_nan.
Proof.
  apply (vertical_nan_latches sample_target
           (sample_config fc_zero 0 3 50 10)).
  reflexivity.
Defined.

Lemma add_zero_r (s : bool) (m : positive) (e : Z) (z : bool) :
  add (S754_finite s m e) (S754_zero z) = S754_finite s m e.
Proof. reflexivity. Qed.

Lemma constrain_vert_inside (c : Z) (x : float) :
  vert_within c x -> constrain_vert c x = x.
Proof.
  intros [H1 H2]. unfold constrain_vert. rewrite H1, H2. reflexivity.
Qed.

(** X3. With the decay setting at 0 and a zero vertical acceleration, a
    tick leaves a non-zero finite Z-acc I-term that is inside its limit
    exactly as it was. *)
Theorem vertical_hold (tg : Target) (cfg : CONFIG_STRUCT) (period : Z)
    (inp : Inputs) (s : State) (p : Profile) (sg : bool) (m : positive)
    (e : Z) (z : bool) :
  IntegralAccVertf s p = S754_finite sg m e ->
  valid (S754_finite sg m e) = true ->
  vert_within (Raw_I_Constrain cfg p ZED) (S754_finite sg m e) ->
  AccVertFilter cfg = 0 ->
  accVertf inp = S754_zero z ->
  IntegralAccVertf (Sensor_PID tg cfg period inp s) p = S754_finite sg m e.
Proof.
  intros HI Hv Hw Hf Ha.
  rewrite Sensor_IntegralAccVertf, HI, Ha, add_zero_r.
  unfold vert_decay, decay_factor. rewrite Hf.
  change (sub (of_Z 1) (div (of_Z 0) (of_Z 10000))) with one.
  rewrite mul_one by exact Hv.
  apply constrain_vert_inside, Hw.
Qed.

Lemma vertical_hold_witness :
  let cfg := sample_config fc_zero 0 0 50 10 in
  let s := Sensor_PID sample_target cfg 3571
             (sample_inputs 0 (of_Z 20) 1) init_state in
  IntegralAccVertf
    (Sensor_PID sample_target cfg 3571 (sample_inputs 0 (of_Z 0) 1) s) P1
  = S754_finite false 10485760 (-19).
Proof.
  cbv zeta.
  apply (vertical_hold sample_target (sample_config fc_zero 0 0 50 10)
           3571 (sample_inputs 0 (of_Z 0) 1) _ P1 false 10485760 (-19) false).
  - vm_compute. reflexivity.
  - reflexivity.
  - split; vm_compute; reflexivity.
  - reflexivity.
  - reflexivity.
Defined.


(** ** The gyro path of [Sensor_PID] *)

Section GyroPath.

Variable tg : Target.
Variable cfg : CONFIG_STRUCT.

Lemma gyro_LPF_off (s : State) (a : Axis) :
  Gyro_LPF cfg = NOFILTER tg -> gyro_LPF tg cfg s a = of_Z (gyroADC s a).
Proof.
  intros H. unfold gyro_LPF. rewrite H, Z.eqb_refl. reflexivity.
Qed.

(** A loop period of [3571 * 2^k] counts scales by exactly [2^k]. *)
Lemma loop_scale_pow2 (k x : Z) :
  0 <= k <= 15 -> - 32768 <= x <= 32767 ->
  loop_scale tg (3571 * 2 ^ k) x = x * 2 ^ k.
Proof.
  intros Hk Hx. unfold loop_scale. rewrite pow2_factor by exact Hk.
  assert (Hpk : 1 <= 2 ^ k <= 32768).
  { split; [pose proof (Z.pow_pos_nonneg 2 k); lia|].
    change 32768 with (2 ^ 15). apply Z.pow_le_mono_r; lia. }
  destruct x as [|p|p].
  - reflexivity.
  - destruct (binary_round_normal false p) as (m & e & E & Hd & He & Hm);
      [lia|].
    unfold of_Z. cbn [binary_normalize]. rewrite E.
    rewrite mul_pow2 by lia.
    unfold to_int. cbn [trunc].
    replace (e + k) with (k - - e) by lia.
    rewrite Hm, shiftl_scaled by lia.
    rewrite fitsb32 by nia. reflexivity.
  - destruct (binary_round_normal true p) as (m & e & E & Hd & He & Hm);
      [lia|].
    unfold of_Z. cbn [binary_normalize]. rewrite E.
    rewrite mul_pow2 by lia.
    unfold to_int. cbn [trunc].
    replace (e + k) with (k - - e) by lia.
    rewrite Hm, shiftl_scaled by lia.
    rewrite fitsb32 by nia. lia.
Qed.

(** A period of zero counts scales everything to zero. *)
Lemma loop_scale_zero (period x : Z) :
  uint32 period = 0 -> - 32768 <= x <= 32767 -> loop_scale tg period x = 0.
Proof.
  intros Hp Hx. unfold loop_scale. rewrite Hp.
  change (div (of_Z 0) STANDARDLOOP) with (S754_zero false).
  unfold to_int. rewrite mul_of_Z_zero by exact Hx. reflexivity.
Qed.

Lemma Sensor_PID_filter_off (period : Z) (inp : Inputs) (s : State)
    (a : Axis) :
  Gyro_LPF cfg = NOFILTER tg ->
  - 32768 <= gyroADC s a <= 32767 ->
  let s' := Sensor_PID tg cfg period inp s in
  gyroADC s' a = gyroADC s a
  /\ gyroSmooth s' a = of_Z (gyroADC s a)
  /\ PID_AvgGyro s' a = int32 (PID_AvgGyro s a + gyroADC s a).
Proof.
  intros Hoff Hg. cbv zeta.
  rewrite Sensor_gyroADC, Sensor_gyroSmooth, Sensor_PID_AvgGyro.
  rewrite gyro_LPF_off by exact Hoff.
  rewrite to_int_of_Z by (try apply fitsb16; lia).
  repeat split.
Qed.

Lemma gyro_increment_arg (period : Z) (inp : Inputs) (s : State)
    (p : Profile) (a : Axis) :
  let d := cint (gyroADC (Sensor_PID tg cfg period inp s) a
                 + stick_rate (Stick_rates cfg p a) (RCinputsAxis inp a)) in
  gyro_increment tg cfg period inp s p a = loop_scale tg period d
  /\ - 32768 <= d <= 32767.
Proof.
  cbv zeta. rewrite Sensor_gyroADC. unfold gyro_increment.
  match goal with |- context [cint ?x] => pose proof (cint_range x) as Hc end.
  rewrite (int32_small (cint _)) by lia. split; [reflexivity | exact Hc].
Qed.

Lemma Sensor_IntegralGyro_pow2 (k : Z) (inp : Inputs) (s : State)
    (p : Profile) (a : Axis) :
  0 <= k <= 15 ->
  let s' := Sensor_PID tg cfg (3571 * 2 ^ k) inp s in
  let d := cint (gyroADC s' a
                 + stick_rate (Stick_rates cfg p a) (RCinputsAxis inp a)) in
  gyro_increment tg cfg (3571 * 2 ^ k) inp s p a = d * 2 ^ k
  /\ IntegralGyro s' p a
     = constrain_I (Raw_I_Constrain cfg p (GYRO a))
                   (int32 (IntegralGyro s p a + d * 2 ^ k)).
Proof.
  intros Hk. cbv zeta.
  destruct (gyro_increment_arg (3571 * 2 ^ k) inp s p a) as [E Hd].
  rewrite loop_scale_pow2 in E by assumption.
  split; [exact E|]. rewrite Sensor_IntegralGyro, E. reflexivity.
Qed.

End GyroPath.

(** X4. With the gyro filter off, a tick leaves an [int16_t] sample in
    [gyroADC] as it found it (the trip through [float] and back is exact),
    stores it in [gyroSmooth] and adds it to [PID_AvgGyro]. *)
Theorem filter_off_passes_sample (tg : Target) (cfg : CONFIG_STRUCT)
    (period : Z) (inp : Inputs) (s : State) (a : Axis) :
  Gyro_LPF cfg = NOFILTER tg ->
  - 32768 <= gyroADC s a <= 32767 ->
  let s' := Sensor_PID tg cfg period inp s in
  gyroADC s' a = gyroADC s a
  /\ gyroSmooth s' a = of_Z (gyroADC s a)
  /\ PID_AvgGyro s' a = int32 (PID_AvgGyro s a + gyroADC s a).
Proof. apply Sensor_PID_filter_off. Qed.

Lemma filter_off_passes_sample_witness :
  let cfg := sample_config fc_zero 0 0 1000 0 in
  let s := step sample_target cfg init_state
             (ReadGyros (roll_rate_sample (- 1234))) in
  let s' := Sensor_PID sample_target cfg 5000 (sample_inputs 0 (of_Z 0) 1) s in
  gyroADC s' ROLL = gyroADC s ROLL
  /\ gyroSmooth s' ROLL = of_Z (gyroADC s ROLL)
  /\ PID_AvgGyro s' ROLL = int32 (PID_AvgGyro s ROLL + gyroADC s ROLL).
Proof.
  cbv zeta. apply filter_off_passes_sample.
  - reflexivity.
  - vm_compute. split; intros H; discriminate H.
Defined.

(** X5. Time compensation at the periods [3571 * 2^k] (k = 0..15, that is
    1, 2, 4, ... standard loop periods): the increment added to the gyro
    I-term is exactly [2^k] times the 16-bit sum of the filtered gyro sample
    and the mapped stick.  At the standard period itself (k = 0) the
    compensation changes nothing. *)
Theorem period_scaling (tg : Target) (cfg : CONFIG_STRUCT) (k : Z)
    (inp : Inputs) (s : State) (p : Profile) (a : Axis) :
  0 <= k <= 15 ->
  let s' := Sensor_PID tg cfg (3571 * 2 ^ k) inp s in
  let d := cint (gyroADC s' a
                 + stick_rate (Stick_rates cfg p a) (RCinputsAxis inp a)) in
  gyro_increment tg cfg (3571 * 2 ^ k) inp s p a = d * 2 ^ k
  /\ IntegralGyro s' p a
     = constrain_I (Raw_I_Constrain cfg p (GYRO a))
                   (int32 (IntegralGyro s p a + d * 2 ^ k)).
Proof. apply Sensor_IntegralGyro_pow2. Qed.

Lemma period_scaling_witness :
  let cfg := sample_config fc_zero 0 0 100000 0 in
  let inp := sample_inputs 0 (of_Z 0) 1 in
  let s := step sample_target cfg init_state
             (ReadGyros (roll_rate_sample (- 321))) in
  let s' := Sensor_PID sample_target cfg (3571 * 2 ^ 3) inp s in
  let d := cint (gyroADC s' ROLL
                 + stick_rate (Stick_rates cfg P1 ROLL)
                              (RCinputsAxis inp ROLL)) in
  gyro_increment sample_target cfg (3571 * 2 ^ 3) inp s P1 ROLL = d * 2 ^ 3
  /\ IntegralGyro s' P1 ROLL
     = constrain_I (Raw_I_Constrain cfg P1 (GYRO ROLL))
                   (int32 (IntegralGyro s P1 ROLL + d * 2 ^ 3)).
Proof.
  cbv zeta.
  apply (period_scaling sample_target (sample_config fc_zero 0 0 100000 0) 3).
  lia.
Defined.

Lemma constrain_I_clamp (c i : Z) :
  0 <= c <= 2147483647 -> constrain_I c i = Z.max (- c) (Z.min c i).
Proof.
  intros Hc. unfold constrain_I. rewrite !int32_small by lia.
  destruct (c <? i) eqn:E1; [apply Z.ltb_lt in E1 | apply Z.ltb_ge in E1].
  - destruct (c <? - c) eqn:E2;
      [apply Z.ltb_lt in E2 | apply Z.ltb_ge in E2]; lia.
  - destruct (i <? - c) eqn:E2;
      [apply Z.ltb_lt in E2 | apply Z.ltb_ge in E2]; lia.
Qed.

(** X6. The gyro I-term update is a saturating addition: when the sum of the
    old I-term and the scaled increment stays in [int32_t], the new I-term
    is that sum clamped to [-limit, +limit].  In particular an I-term at its
    limit stays exactly at the limit under a further increment of the same
    sign. *)
Theorem gyro_integrator_saturating_add (tg : Target) (cfg : CONFIG_STRUCT)
    (period : Z) (inp : Inputs) (s : State) (p : Profile) (a : Axis) :
  let c := Raw_I_Constrain cfg p (GYRO a) in
  let d := gyro_increment tg cfg period inp s p a in
  let s' := Sensor_PID tg cfg period inp s in
  0 <= c <= 2147483647 ->
  - 2147483648 <= IntegralGyro s p a + d <= 2147483647 ->
  IntegralGyro s' p a = Z.max (- c) (Z.min c (IntegralGyro s p a + d))
  /\ (IntegralGyro s p a = c -> 0 <= d -> IntegralGyro s' p a = c)
  /\ (IntegralGyro s p a = - c -> d <= 0 -> IntegralGyro s' p a = - c).
Proof.
  cbv zeta. intros Hc Hsum.
  rewrite Sensor_IntegralGyro, int32_small by exact Hsum.
  rewrite constrain_I_clamp by exact Hc.
  repeat split; intros; lia.
Qed.

Lemma gyro_integrator_saturating_add_witness :
  let cfg := sample_config fc_zero 0 0 1000 0 in
  let inp := sample_inputs 0 (of_Z 0) 1 in
  let s := run sample_target cfg
             [ReadGyros (roll_rate_sample 900); Sampler 3571 inp;
              Sampler 3571 inp] init_state in
  let c := Raw_I_Constrain cfg P1 (GYRO ROLL) in
  let d := gyro_increment sample_target cfg 7142 inp s P1 ROLL in
  let s' := Sensor_PID sample_target cfg 7142 inp s in
  IntegralGyro s P1 ROLL = 1000 /\ d = 1800
  /\ IntegralGyro s' P1 ROLL
     = Z.max (- c) (Z.min c (IntegralGyro s P1 ROLL + d))
  /\ (IntegralGyro s P1 ROLL = c -> 0 <= d -> IntegralGyro s' P1 ROLL = c)
  /\ (IntegralGyro s P1 ROLL = - c -> d <= 0
      -> IntegralGyro s' P1 ROLL = - c).
Proof.
  cbv zeta. split; [vm_compute; reflexivity|].
  split; [vm_compute; reflexivity|].
  apply (gyro_integrator_saturating_add sample_target
           (sample_config fc_zero 0 0 1000 0) 7142).
  - cbn. lia.
  - vm_compute. split; intros H; discriminate H.
Defined.

(** X19. Period independence for a doubled period.  With the gyro filter
    off and the clamp not reached, one tick over [2T] adds to the gyro
    I-term exactly what two ticks over [T] add, for [T = 3571 * 2^k] counts
    (k = 0..14) and the same gyro sample and stick position. *)
Theorem period_doubling (tg : Target) (cfg : CONFIG_STRUCT) (k : Z)
    (inp : Inputs) (s : State) (p : Profile) (a : Axis) :
  let c := Raw_I_Constrain cfg p (GYRO a) in
  let d := cint (gyroADC s a
                 + stick_rate (Stick_rates cfg p a) (RCinputsAxis inp a))
           * 2 ^ k in
  let T := 3571 * 2 ^ k in
  Gyro_LPF cfg = NOFILTER tg ->
  - 32768 <= gyroADC s a <= 32767 ->
  0 <= k <= 14 ->
  0 <= c <= 2147483647 ->
  Z.abs (IntegralGyro s p a + d) <= c ->
  Z.abs (IntegralGyro s p a + 2 * d) <= c ->
  IntegralGyro (Sensor_PID tg cfg (3571 * 2 ^ (k + 1)) inp s) p a
  = IntegralGyro s p a + 2 * d
  /\ IntegralGyro (Sensor_PID tg cfg T inp (Sensor_PID tg cfg T inp s)) p a
     = IntegralGyro s p a + 2 * d.
Proof.
  cbv zeta. intros Hoff Hg Hk Hc H1 H2.
  assert (Hs : forall per,
             gyroADC (Sensor_PID tg cfg per inp s) a = gyroADC s a).
  { intros per.
    destruct (Sensor_PID_filter_off tg cfg per inp s a Hoff Hg) as [E _].
    exact E. }
  split.
  - destruct (Sensor_IntegralGyro_pow2 tg cfg (k + 1) inp s p a) as [_ E];
      [lia|].
    rewrite E, Hs, constrain_I_clamp by exact Hc.
    rewrite Z.pow_add_r by lia. change (2 ^ 1) with 2.
    rewrite int32_small by lia. lia.
  - set (s1 := Sensor_PID tg cfg (3571 * 2 ^ k) inp s).
    assert (E1 : IntegralGyro s1 p a
                 = IntegralGyro s p a
                   + cint (gyroADC s a
                           + stick_rate (Stick_rates cfg p a)
                                        (RCinputsAxis inp a)) * 2 ^ k).
    { unfold s1.
      destruct (Sensor_IntegralGyro_pow2 tg cfg k inp s p a) as [_ E]; [lia|].
      rewrite E, Hs, constrain_I_clamp by exact Hc.
      rewrite int32_small by lia. lia. }
    assert (Eg : gyroADC s1 a = gyroADC s a) by apply Hs.
    destruct (Sensor_IntegralGyro_pow2 tg cfg k inp s1 p a) as [_ E]; [lia|].
    rewrite E.
    destruct (Sensor_PID_filter_off tg cfg (3571 * 2 ^ k) inp s1 a Hoff)
      as (-> & _); [lia|].
    rewrite Eg, E1, constrain_I_clamp by exact Hc.
    rewrite int32_small by lia. lia.
Qed.

Lemma period_doubling_witness :
  let cfg := sample_config fc_zero 0 0 100000 0 in
  let inp := sample_inputs 0 (of_Z 0) 1 in
  let s := step sample_target cfg init_state
             (ReadGyros (roll_rate_sample 150)) in
  IntegralGyro (Sensor_PID sample_target cfg (3571 * 2 ^ (2 + 1)) inp s)
               P1 ROLL
  = IntegralGyro s P1 ROLL
    + 2 * (cint (gyroADC s ROLL
                 + stick_rate (Stick_rates cfg P1 ROLL)
                              (RCinputsAxis inp ROLL)) * 2 ^ 2)
  /\ IntegralGyro
       (Sensor_PID sample_target cfg (3571 * 2 ^ 2) inp
          (Sensor_PID sample_target cfg (3571 * 2 ^ 2) inp s)) P1 ROLL
     = IntegralGyro s P1 ROLL
       + 2 * (cint (gyroADC s ROLL
                    + stick_rate (Stick_rates cfg P1 ROLL)
                                 (RCinputsAxis inp ROLL)) * 2 ^ 2).
Proof.
  cbv zeta.
  apply (period_doubling sample_target (sample_config fc_zero 0 0 100000 0) 2).
  - reflexivity.
  - vm_compute. split; intros H; discriminate H.
  - lia.
  - cbn. lia.
  - vm_compute. intros H; discriminate H.
  - vm_compute. intros H; discriminate H.
Defined.

(** X20. A loop period of zero counts freezes the gyro I-terms: whatever
    the gyro sample and the stick position, a tick with [period = 0] leaves
    an I-term that is within its limit unchanged. *)
Theorem zero_period_freezes (tg : Target) (cfg : CONFIG_STRUCT) (period : Z)
    (inp : Inputs) (s : State) (p : Profile) (a : Axis) :
  uint32 period = 0 ->
  0 <= Raw_I_Constrain cfg p (GYRO a) <= 2147483647 ->
  Z.abs (IntegralGyro s p a) <= Raw_I_Constrain cfg p (GYRO a) ->
  gyro_increment tg cfg period inp s p a = 0
  /\ IntegralGyro (Sensor_PID tg cfg period inp s) p a = IntegralGyro s p a.
Proof.
  intros Hp Hc HI.
  destruct (gyro_increment_arg tg cfg period inp s p a) as [E Hd].
  rewrite loop_scale_zero in E by assumption.
  split; [exact E|].
  rewrite Sensor_IntegralGyro, E, Z.add_0_r, constrain_I_clamp by exact Hc.
  rewrite int32_small by lia. lia.
Qed.

Lemma zero_period_freezes_witness :
  let cfg := sample_config fc_zero 0 0 1000 0 in
  let inp := sample_inputs 0 (of_Z 0) 1 in
  let s := run sample_target cfg
             [ReadGyros (roll_rate_sample 300); Sampler 3571 inp]
             init_state in
  gyro_increment sample_target cfg 0 inp s P1 ROLL = 0
  /\ IntegralGyro (Sensor_PID sample_target cfg 0 inp s) P1 ROLL
     = IntegralGyro s P1 ROLL.
Proof.
  cbv zeta. apply zero_period_freezes.
  - reflexivity.
  - cbn. lia.
  - vm_compute. intros H; discriminate H.
Defined.

(** ** Accumulating and averaging *)

Lemma sum_axis_bounds (gs : list (Axis -> Z)) (a : Axis) :
  (forall g, In g gs -> - 32768 <= g a <= 32767) ->
  - 32768 * Z.of_nat (length gs) <= sum_axis gs a
  <= 32767 * Z.of_nat (length gs).
Proof.
  induction gs as [|g gs IH]; intros H.
  - cbn. lia.
  - cbn [sum_axis fold_right length]. fold (sum_axis gs a).
    rewrite Nat2Z.inj_succ.
    pose proof (H g (or_introl eq_refl)).
    assert (forall g', In g' gs -> - 32768 <= g' a <= 32767)
      by (intros g' Hin; apply H; right; exact Hin).
    specialize (IH H1). lia.
Qed.

(** Over a window the accumulator grows by the sum of the samples. *)
Lemma window_accumulates (tg : Target) (cfg : CONFIG_STRUCT) (period : Z)
    (inp : Inputs) (a : Axis) (gs : list (Axis -> Z)) :
  Gyro_LPF cfg = NOFILTER tg ->
  (forall g, In g gs -> - 32768 <= g a <= 32767) ->
  forall s,
    - 2147483648 <= PID_AvgGyro s a - 32768 * Z.of_nat (length gs) ->
    PID_AvgGyro s a + 32767 * Z.of_nat (length gs) <= 2147483647 ->
    PID_AvgGyro (run tg cfg (sample_window period inp gs) s) a
    = PID_AvgGyro s a + sum_axis gs a.
Proof.
  intros Hoff. induction gs as [|g gs IH]; intros Hg s Hlo Hhi.
  - cbn. lia.
  - change (sample_window period inp (g :: gs))
      with (ReadGyros g :: Sampler period inp :: sample_window period inp gs).
    rewrite !run_cons.
    cbn [length] in Hlo, Hhi. rewrite Nat2Z.inj_succ in Hlo, Hhi.
    pose proof (Hg g (or_introl eq_refl)) as Hga.
    set (s1 := step tg cfg s (ReadGyros g)).
    assert (E1 : gyroADC s1 a = g a).
    { unfold s1. rewrite ReadGyros_gyroADC. apply int16_small, Hga. }
    assert (E2 : PID_AvgGyro s1 a = PID_AvgGyro s a) by reflexivity.
    destruct (Sensor_PID_filter_off tg cfg period inp s1 a Hoff)
      as (_ & _ & E3); [lia|].
    rewrite E1, E2, int32_small in E3 by lia.
    rewrite IH.
    + cbn [step]. rewrite E3. cbn [sum_axis fold_right]. fold (sum_axis gs a).
      lia.
    + intros g' Hin. apply Hg. right. exact Hin.
    + cbn [step]. rewrite E3. lia.
    + cbn [step]. rewrite E3. lia.
Qed.

(** X7. Averaging over a window.  Start from an empty accumulator, let the
    gyro driver deliver K samples (1 <= K <= 65535, each an [int16_t]), one
    before each tick, with the gyro filter off; then [Calculate_PID] with
    [LoopCount = K] leaves in [gyroADC] the sum of the samples divided by K,
    truncated toward zero, and the accumulator at zero again. *)
Theorem window_average (tg : Target) (cfg : CONFIG_STRUCT) (period : Z)
    (inp inp' : Inputs) (a : Axis) (gs : list (Axis -> Z)) (s : State) :
  Gyro_LPF cfg = NOFILTER tg ->
  (forall g, In g gs -> - 32768 <= g a <= 32767) ->
  PID_AvgGyro s a = 0 ->
  1 <= Z.of_nat (length gs) <= 65535 ->
  LoopCount inp' = Z.of_nat (length gs) ->
  let s' := run tg cfg (sample_window period inp gs ++ [Combiner inp']) s in
  gyroADC s' a = Z.quot (sum_axis gs a) (Z.of_nat (length gs))
  /\ PID_AvgGyro s' a = 0.
Proof.
  intros Hoff Hg H0 HK HL. cbv zeta. rewrite run_app, run_cons.
  change (run tg cfg [] ?x) with x. cbn [step].
  rewrite Calc_gyroADC, Calc_PID_AvgGyro.
  rewrite window_accumulates by (try assumption; rewrite H0; lia).
  rewrite H0, Z.add_0_l, HL.
  pose proof (sum_axis_bounds gs a Hg) as Hs.
  rewrite cdiv_quot by lia.
  split; [|reflexivity].
  apply int16_small. split.
  - apply Z.quot_le_lower_bound; lia.
  - apply Z.quot_le_upper_bound; lia.
Qed.

Lemma window_average_witness :
  let cfg := sample_config fc_zero 0 0 100000 0 in
  let gs := [roll_rate_sample 100; roll_rate_sample (- 7);
             roll_rate_sample 250] in
  let s' := run sample_target cfg
              (sample_window 3571 (sample_inputs 0 (of_Z 0) 1) gs
               ++ [Combiner (sample_inputs 0 (of_Z 0) 3)]) init_state in
  gyroADC s' ROLL = Z.quot (sum_axis gs ROLL) 3 /\ PID_AvgGyro s' ROLL = 0.
Proof.
  cbv zeta.
  apply (window_average sample_target (sample_config fc_zero 0 0 100000 0)
           3571 (sample_inputs 0 (of_Z 0) 1) (sample_inputs 0 (of_Z 0) 3) ROLL
           [roll_rate_sample 100; roll_rate_sample (- 7);
            roll_rate_sample 250] init_state).
  - reflexivity.
  - intros g [<- | [<- | [<- | []]]]; cbn; lia.
  - reflexivity.
  - cbn. lia.
  - reflexivity.
Defined.


(** ** The outputs of [Calculate_PID] *)

Lemma limit_acc_I_bound (l i : Z) :
  0 <= l <= 2147483647 -> Z.abs (limit_acc_I l i) <= l.
Proof.
  intros Hl. unfold limit_acc_I. rewrite !int32_small by lia.
  destruct (l <? i) eqn:E1; [apply Z.ltb_lt in E1 | apply Z.ltb_ge in E1].
  - destruct (l <? - l) eqn:E2;
      [apply Z.ltb_lt in E2 | apply Z.ltb_ge in E2]; lia.
  - destruct (i <? - l) eqn:E2;
      [apply Z.ltb_lt in E2 | apply Z.ltb_ge in E2]; lia.
Qed.

Lemma gyro_bias_range (cfg : CONFIG_STRUCT) (p : Profile) (a : Axis) :
  - 32768 <= gyro_bias cfg p a <= 32767.
Proof.
  unfold gyro_bias. destruct a; try lia.
  pose proof (cint_range (Z.shiftl (Yaw_trim (FlightMode cfg p)) 6)).
  rewrite int32_small; lia.
Qed.

Lemma PID_gyro_P_range (cfg : CONFIG_STRUCT) (p : Profile) (a : Axis)
    (g : Z) :
  - 196608 <= PID_gyro_P cfg p a g <= 196602.
Proof.
  unfold PID_gyro_P.
  pose proof (gyro_bias_range cfg p a).
  pose proof (cint_range (g * P_gain cfg p a)).
  rewrite (int32_small (_ + _)) by lia. rewrite int32_small by lia. lia.
Qed.

(** X8. Whatever the integrators hold and whatever the gains are, the I-term
    that enters an output is within the configured output limit: the gyro
    I-term of every axis, and the Z-acc I-term. *)
Theorem I_terms_within_output_limits (tg : Target) (cfg : CONFIG_STRUCT)
    (s : State) (p : Profile) (a : Axis) :
  limits_ok cfg ->
  Z.abs (PID_Gyro_I_actual cfg p a (IntegralGyro s p a))
  <= Raw_I_Limits cfg p (GYRO a)
  /\ Z.abs (acc_zed_I tg cfg s p) <= Raw_I_Limits cfg p ZED.
Proof.
  intros Hl. split.
  - apply limit_I_bound, Hl.
  - apply limit_acc_I_bound, Hl.
Qed.

Lemma I_terms_within_output_limits_witness :
  let cfg := sample_config (fc_roll 0 127 0) 0 0 2000000 500 in
  let s := run sample_target cfg
             [ReadGyros (roll_rate_sample 20000);
              Sampler 3571000 (sample_inputs 0 (of_Z 100) 1)] init_state in
  Z.abs (PID_Gyro_I_actual cfg P1 ROLL (IntegralGyro s P1 ROLL)) <= 500
  /\ Z.abs (acc_zed_I sample_target cfg s P1) <= 500.
Proof.
  cbv zeta.
  apply (I_terms_within_output_limits sample_target
           (sample_config (fc_roll 0 127 0) 0 0 2000000 500)).
  intros p a. cbn. lia.
Defined.

(** X9. With an output limit of at most 1900000 the cast of the gyro output
    to [int16_t] loses nothing: [PID_Gyros[p][a]] is the sum of P- and
    I-term divided by 64, rounded toward minus infinity. *)
Theorem gyro_output_exact (tg : Target) (cfg : CONFIG_STRUCT) (inp : Inputs)
    (s : State) (p : Profile) (a : Axis) :
  0 <= Raw_I_Limits cfg p (GYRO a) <= 1900000 ->
  let s' := Calculate_PID tg cfg inp s in
  PID_Gyros s' p a
  = (PID_gyro_P cfg p a (gyroADC s' a)
     + PID_Gyro_I_actual cfg p a (IntegralGyro s p a)) / 64.
Proof.
  intros HL. cbv zeta. rewrite Calc_PID_Gyros, Calc_gyroADC.
  unfold PID_gyro_out.
  set (g := int16 (cdiv tg (PID_AvgGyro s a) (LoopCount inp))).
  pose proof (PID_gyro_P_range cfg p a g) as HP.
  assert (HI : Z.abs (PID_Gyro_I_actual cfg p a (IntegralGyro s p a))
               <= Raw_I_Limits cfg p (GYRO a))
    by (apply limit_I_bound; lia).
  rewrite int32_small by lia.
  unfold PID_SCALE. rewrite Z.shiftr_div_pow2 by lia. change (2 ^ 6) with 64.
  apply int16_small.
  split.
  - apply Z.div_le_lower_bound; lia.
  - apply Z.lt_succ_r, Z.div_lt_upper_bound; lia.
Qed.

Lemma gyro_output_exact_witness :
  let cfg := sample_config (fc_roll 50 20 0) 0 0 100000 80000 in
  let inp := sample_inputs 0 (of_Z 0) 2 in
  let s := run sample_target cfg
             [ReadGyros (roll_rate_sample (- 300)); Sampler 3571 inp;
              Sampler 3571 inp] init_state in
  let s' := Calculate_PID sample_target cfg inp s in
  PID_Gyros s' P1 ROLL
  = (PID_gyro_P cfg P1 ROLL (gyroADC s' ROLL)
     + PID_Gyro_I_actual cfg P1 ROLL (IntegralGyro s P1 ROLL)) / 64.
Proof.
  cbv zeta. apply gyro_output_exact. cbn. lia.
Defined.

Lemma L_trim_level_trim (cfg : CONFIG_STRUCT) (p : Profile) (a : Axis) :
  L_trim cfg p a = int16 (level_trim cfg p a).
Proof. destruct a; reflexivity. Qed.

(** X10. Leveling term of roll and pitch.  When the trim is an [int16_t] and
    the difference between angle and trim fits in 16 bits,
    [PID_ACCs[p][a]] is [(angle - trim) * gain / 256], rounded toward minus
    infinity; it is 0 when the angle equals the trim. *)
Theorem leveling_term (tg : Target) (cfg : CONFIG_STRUCT) (inp : Inputs)
    (s : State) (p : Profile) (a : Axis) :
  a <> YAW ->
  - 32768 <= level_trim cfg p a <= 32767 ->
  - 32768 <= angle inp a - level_trim cfg p a <= 32767 ->
  let s' := Calculate_PID tg cfg inp s in
  PID_ACCs s' p a
  = (angle inp a - level_trim cfg p a) * L_gain cfg p a / 256
  /\ (angle inp a = level_trim cfg p a -> PID_ACCs s' p a = 0).
Proof.
  intros Ha Ht Hd. cbv zeta.
  assert (E : PID_ACCs (Calculate_PID tg cfg inp s) p a
              = (angle inp a - level_trim cfg p a) * L_gain cfg p a / 256).
  { rewrite Calc_PID_ACCs.
    assert (Hg : - 128 <= L_gain cfg p a <= 127)
      by (unfold L_gain; apply int8_range).
    transitivity
      (int16 (Z.shiftr
                (int32 (int32 (cint (angle inp a - L_trim cfg p a))
                        * L_gain cfg p a)) 8));
      [destruct a; [reflexivity | reflexivity | tauto]|].
    rewrite L_trim_level_trim, (int16_small (level_trim cfg p a)) by exact Ht.
    rewrite (cint_small (angle inp a - level_trim cfg p a)) by exact Hd.
    rewrite (int32_small (angle inp a - level_trim cfg p a)) by lia.
    rewrite (int32_small (_ * _)) by nia.
    rewrite Z.shiftr_div_pow2 by lia. change (2 ^ 8) with 256.
    apply int16_small. split.
    - apply Z.div_le_lower_bound; nia.
    - apply Z.lt_succ_r, Z.div_lt_upper_bound; nia. }
  split; [exact E|].
  intros Heq. rewrite E, Heq, Z.sub_diag. reflexivity.
Qed.

Lemma leveling_term_witness :
  let cfg :=
    {| FlightMode := fun _ => fc_zero; Vibration := 0; Servo_rate := 0;
       Gyro_LPF := 7; AccVertFilter := 0;
       Raw_I_Constrain := fun _ _ => 0; Raw_I_Limits := fun _ _ => 0;
       Rolltrim := fun _ => 0; Pitchtrim := fun _ => - 120 |} in
  let inp :=
    {| RC_AILERON := 0; RC_ELEVATOR := 0; RC_RUDDER := 0;
       gyroADC_raw := fun _ => 0; accVertf := of_Z 0;
       angle := fun _ => 4500; LoopCount := 1 |} in
  let s' := Calculate_PID sample_target cfg inp init_state in
  PID_ACCs s' P2 PITCH
  = (angle inp PITCH - level_trim cfg P2 PITCH) * L_gain cfg P2 PITCH / 256
  /\ (angle inp PITCH = level_trim cfg P2 PITCH -> PID_ACCs s' P2 PITCH = 0).
Proof.
  cbv zeta. apply leveling_term.
  - discriminate.
  - cbn. lia.
  - cbn. lia.
Defined.

(** X11. Yaw proportional term.  With a yaw trim whose shift by 6 fits in
    16 bits (-512..511) and a 16-bit product of average and gain, the term
    is [3 * (64 * trim + average * gain)]: the trim enters the output with
    weight 3. *)
Theorem yaw_P_term (tg : Target) (cfg : CONFIG_STRUCT) (inp : Inputs)
    (s : State) (p : Profile) :
  let t := Yaw_trim (FlightMode cfg p) in
  let g := gyroADC (Calculate_PID tg cfg inp s) YAW in
  - 512 <= t <= 511 ->
  - 32768 <= g * P_gain cfg p YAW <= 32767 ->
  PID_gyro_P cfg p YAW g = 3 * (64 * t + g * P_gain cfg p YAW).
Proof.
  cbv zeta. intros Ht Hg. unfold PID_gyro_P, gyro_bias.
  rewrite Z.shiftl_mul_pow2 by lia. change (2 ^ 6) with 64.
  rewrite !cint_small by lia.
  rewrite (int32_small (_ * 64)) by lia.
  rewrite (int32_small (_ + _)) by lia.
  rewrite int32_small by lia. lia.
Qed.

Lemma yaw_P_term_witness :
  let cfg := sample_config (fc_roll 0 0 (- 20)) 0 0 0 0 in
  let inp := sample_inputs 0 (of_Z 0) 1 in
  let g := gyroADC (Calculate_PID sample_target cfg inp init_state) YAW in
  PID_gyro_P cfg P1 YAW g = 3 * (64 * (- 20) + g * P_gain cfg P1 YAW).
Proof.
  cbv zeta.
  apply (yaw_P_term sample_target (sample_config (fc_roll 0 0 (- 20)) 0 0 0 0)
           (sample_inputs 0 (of_Z 0) 1) init_state P1).
  - cbn. lia.
  - vm_compute. split; intros H; discriminate H.
Defined.

Lemma trunc_opp (x : float) (z : Z) :
  trunc x = Some z -> trunc (opp x) = Some (- z).
Proof.
  destruct x as [s | s | | s m e]; cbn [trunc opp SFopp]; intros H;
    try discriminate H.
  - injection H as <-. reflexivity.
  - injection H as <-. destruct s; cbn [negb]; f_equal; lia.
Qed.

(** X12. The Z-acc PI value.  When the vertical acceleration truncates to
    an integer [za] of magnitude at most 10^6 and the Z-acc I-term to [zi] of
    magnitude at most 16 * 10^6, and the output limit [l] is in 0..2^30, then
    [PID_ACCs[p][YAW]] is the [int16_t] cast of
    [(-3 * za * Lgain + clamp(-zi * Igain / 4)) / 64], divisions rounding
    toward minus infinity: both terms oppose the measured acceleration. *)
Theorem acc_zed_output (tg : Target) (cfg : CONFIG_STRUCT) (inp : Inputs)
    (s : State) (p : Profile) (za zi : Z) :
  trunc (accVertf inp) = Some za -> Z.abs za <= 1000000 ->
  trunc (IntegralAccVertf s p) = Some zi -> Z.abs zi <= 16000000 ->
  0 <= Raw_I_Limits cfg p ZED <= 1073741824 ->
  PID_ACCs (Calculate_PID tg cfg inp s) p YAW
  = int16 ((- 3 * za * L_gain cfg p YAW
            + limit_acc_I (Raw_I_Limits cfg p ZED)
                          (- zi * I_gain cfg p ZED / 4)) / 64).
Proof.
  intros Ha Hza Hi Hzi HL.
  rewrite Calc_PID_ACCs. unfold acc_zed_P, acc_zed_I, to_int.
  rewrite (trunc_opp _ _ Ha), (trunc_opp _ _ Hi).
  rewrite !fitsb32 by lia.
  assert (HLg : - 128 <= L_gain cfg p YAW <= 127)
    by (unfold L_gain; apply int8_range).
  assert (HIg : - 128 <= I_gain cfg p ZED <= 127)
    by (unfold I_gain; apply int8_range).
  apply Z.abs_le in Hza. apply Z.abs_le in Hzi.
  assert (B1 : - 128000000 <= - za * L_gain cfg p YAW <= 128000000) by nia.
  assert (B2 : - 2048000000 <= - zi * I_gain cfg p ZED <= 2048000000) by nia.
  rewrite (int32_small (- za * _)) by lia.
  rewrite (int32_small (- za * _ * 3)) by lia.
  rewrite (int32_small (- zi * _)) by lia.
  unfold PID_SCALE. rewrite !Z.shiftr_div_pow2 by lia.
  change (2 ^ 2) with 4. change (2 ^ 6) with 64.
  pose proof (limit_acc_I_bound (Raw_I_Limits cfg p ZED)
                (- zi * I_gain cfg p ZED / 4)) as Hb.
  rewrite int32_small by lia.
  do 2 f_equal. lia.
Qed.

Lemma acc_zed_output_witness :
  let fm :=
    {| Roll_Rate := 0; Pitch_Rate := 0; Yaw_Rate := 0;
       Roll_P_mult := 0; Pitch_P_mult := 0; Yaw_P_mult := 0;
       Roll_I_mult := 0; Pitch_I_mult := 0; Yaw_I_mult := 0;
       A_Zed_I_mult := 40;
       A_Roll_P_mult := 0; A_Pitch_P_mult := 0; A_Zed_P_mult := 60;
       Yaw_trim := 0 |} in
  let cfg := sample_config fm 0 0 5000 3000 in
  let inp := sample_inputs 0 (of_Z 25) 1 in
  let s := run sample_target cfg [Sampler 3571 inp; Sampler 3571 inp]
               init_state in
  PID_ACCs (Calculate_PID sample_target cfg inp s) P1 YAW
  = int16 ((- 3 * 25 * L_gain cfg P1 YAW
            + limit_acc_I (Raw_I_Limits cfg P1 ZED)
                          (- 50 * I_gain cfg P1 ZED / 4)) / 64).
Proof.
  cbv zeta.
  refine (acc_zed_output sample_target _ (sample_inputs 0 (of_Z 25) 1) _ P1
            25 50 _ _ _ _ _).
  - reflexivity.
  - lia.
  - vm_compute. reflexivity.
  - lia.
  - cbn. lia.
Defined.

(** ** The stick-rate curves *)

(** X13. The eight rate curves are one formula: for the settings 0..7 the
    mapped stick is [stick * 2^setting / 64], rounded toward minus infinity
    (/64, /32, ..., /1, *2), the doubling of setting 7 being exact as long as
    it fits in [int16_t].  Because of the rounding a negative stick value
    never maps to 0, while a non-negative one below [2^(6 - setting)] does. *)
Theorem stick_rate_curves (r rc : Z) :
  0 <= r <= 7 -> - 32768 <= rc <= 32767 ->
  (r = 7 -> - 16384 <= rc <= 16383) ->
  stick_rate r rc = rc * 2 ^ r / 64
  /\ (rc < 0 -> stick_rate r rc < 0)
  /\ (0 <= rc < 2 ^ (6 - r) -> stick_rate r rc = 0).
Proof.
  intros Hr Hrc H7.
  destruct (Z.eq_dec r 7) as [-> | Hne].
  - specialize (H7 eq_refl).
    assert (E : stick_rate 7 rc = 2 * rc).
    { unfold stick_rate. change (7 <=? 6) with false. change (7 - 6) with 1.
      rewrite Z.shiftl_mul_pow2 by lia. change (2 ^ 1) with 2.
      rewrite int16_small by lia. lia. }
    rewrite E. change (2 ^ 7) with 128. change (2 ^ (6 - 7)) with 0.
    repeat split; try lia.
    replace (rc * 128) with (2 * rc * 64) by lia.
    rewrite Z.div_mul by lia. reflexivity.
  - assert (E : stick_rate r rc = rc / 2 ^ (6 - r)).
    { unfold stick_rate.
      destruct (r <=? 6) eqn:E; [|apply Z.leb_gt in E; lia].
      replace (4 - (r - 2)) with (6 - r) by lia.
      rewrite int16_small by (apply shiftr_range16; lia).
      apply Z.shiftr_div_pow2. lia. }
    assert (Hp : 0 < 2 ^ (6 - r)) by (apply Z.pow_pos_nonneg; lia).
    assert (Hq : 0 < 2 ^ r) by (apply Z.pow_pos_nonneg; lia).
    assert (H64 : 64 = 2 ^ (6 - r) * 2 ^ r).
    { rewrite <- Z.pow_add_r by lia. replace (6 - r + r) with 6 by lia.
      reflexivity. }
    rewrite E. repeat split.
    + rewrite H64, Z.div_mul_cancel_r by lia. reflexivity.
    + intros Hneg. apply Z.div_lt_upper_bound; lia.
    + intros Hsmall. apply Z.div_small. exact Hsmall.
Qed.

Lemma stick_rate_curves_witness :
  stick_rate 2 (- 5) = - 5 * 2 ^ 2 / 64
  /\ (- 5 < 0 -> stick_rate 2 (- 5) < 0)
  /\ (0 <= - 5 < 2 ^ (6 - 2) -> stick_rate 2 (- 5) = 0).
Proof. apply stick_rate_curves; lia. Defined.

(** * Integer range of the gyro I-term path

    The scaled increment of line 218 is a [float] product converted to
    [int32_t].  Its size is bounded here from the rounding functions, by
    the magnitude class (digits of the mantissa plus exponent) of every
    intermediate value. *)

Lemma shr_record_of_loc_m (m : Z) (l : location) :
  shr_m (shr_record_of_loc m l) = m.
Proof. destruct l as [|[ | | ]]; reflexivity. Qed.

Lemma shr_fexp_shift_loc (P : positive) (e : Z) (k : positive) (l : location) :
  fexp prec emax (Zpos (digits2_pos P) + e) - e = Zpos k ->
  exists r, shr_fexp prec emax (Zpos P) e l = (r, e + Zpos k)
            /\ shr_m r = Zpos P / 2 ^ Zpos k.
Proof.
  intros Hk. unfold shr_fexp. cbn [Zdigits2]. rewrite Hk. cbn [shr].
  eexists. split; [reflexivity|].
  rewrite iter_pos_nat, shr_iter_m by (rewrite shr_record_of_loc_m; lia).
  rewrite shr_record_of_loc_m, positive_nat_Z. reflexivity.
Qed.

Lemma round_finish_noshift (sx : bool) (m1 : positive) (e1 : Z) :
  fexp prec emax (Zpos (digits2_pos m1) + e1) <= e1 -> e1 <= 104 ->
  round_finish sx (Zpos m1) e1 = S754_finite sx m1 e1.
Proof.
  intros Hc He. unfold round_finish.
  rewrite shr_fexp_id by (cbn [Zdigits2]; lia).
  cbn [shr_record_of_loc shr_m]. change (emax - prec) with 104.
  destruct (Z.leb_spec e1 104); [reflexivity | lia].
Qed.

Lemma digits_le (p : positive) (b : Z) :
  0 <= b -> Zpos p < 2 ^ b -> Zpos (digits2_pos p) <= b.
Proof.
  intros Hb H. pose proof (digits2_pos_bounds p) as [Bl _].
  destruct (Z.le_gt_cases (Zpos (digits2_pos p)) b) as [L|G]; [exact L|].
  assert (2 ^ b <= 2 ^ (Zpos (digits2_pos p) - 1))
    by (apply Z.pow_le_mono_r; lia). lia.
Qed.

Lemma digits_ge (p : positive) (a : Z) :
  2 ^ (a - 1) <= Zpos p -> a <= Zpos (digits2_pos p).
Proof.
  intros H. pose proof (digits2_pos_bounds p) as [_ Bu].
  destruct (Z.le_gt_cases a (Zpos (digits2_pos p))) as [L|G]; [exact L|].
  assert (2 ^ Zpos (digits2_pos p) <= 2 ^ (a - 1))
    by (apply Z.pow_le_mono_r; lia). lia.
Qed.

Lemma binary_round_aux_shift_loc (sx : bool) (P : positive) (e : Z)
    (k : positive) (l : location) :
  fexp prec emax (Zpos (digits2_pos P) + e) - e = Zpos k ->
  exists m1, Zpos P / 2 ^ Zpos k <= m1 <= Zpos P / 2 ^ Zpos k + 1
    /\ binary_round_aux prec emax sx (Zpos P) e l
       = round_finish sx m1 (e + Zpos k).
Proof.
  intros Hk. destruct (shr_fexp_shift_loc P e k l Hk) as (r & Er & Em).
  exists (round_nearest_even (shr_m r) (loc_of_shr_record r)). split.
  - rewrite <- Em. apply round_nearest_even_bounds.
  - unfold binary_round_aux, round_finish. rewrite Er. reflexivity.
Qed.

Lemma binary_round_aux_noshift (sx : bool) (P : positive) (e : Z)
    (l : location) :
  fexp prec emax (Zpos (digits2_pos P) + e) - e <= 0 ->
  exists m1, Zpos P <= m1 <= Zpos P + 1
    /\ binary_round_aux prec emax sx (Zpos P) e l = round_finish sx m1 e.
Proof.
  intros Hk.
  exists (round_nearest_even (Zpos P)
            (loc_of_shr_record (shr_record_of_loc (Zpos P) l))). split.
  - apply round_nearest_even_bounds.
  - unfold binary_round_aux, round_finish.
    rewrite shr_fexp_id by (cbn [Zdigits2]; exact Hk).
    rewrite shr_record_of_loc_m. reflexivity.
Qed.

(** Rounding in the normal range gives a finite number whose magnitude
    class (digits plus exponent) is that of the input or one above. *)
Lemma binary_round_aux_range (sx : bool) (P : positive) (e : Z) (l : location) :
  - 125 <= Zpos (digits2_pos P) + e -> e <= 103 ->
  Zpos (digits2_pos P) + e <= 127 ->
  exists m' e',
    binary_round_aux prec emax sx (Zpos P) e l = S754_finite sx m' e'
    /\ Zpos (digits2_pos P) + e <= Zpos (digits2_pos m') + e'
       <= Zpos (digits2_pos P) + e + 1.
Proof.
  intros Hlo He Hhi.
  pose proof (digits2_pos_bounds P) as [Bl Bu].
  set (d := Zpos (digits2_pos P)) in *.
  assert (Hd : 1 <= d) by (unfold d; lia).
  assert (Epow : 2 ^ d = 2 * 2 ^ (d - 1)) by (apply pow2_double; lia).
  destruct (Z.le_gt_cases d 24) as [Hle|Hgt].
  - (* no bits shifted out *)
    destruct (binary_round_aux_noshift sx P e l) as (m1 & Hr & E).
    { fold d. rewrite fexp32. lia. }
    rewrite E.
    assert (H24 : 2 ^ d <= 16777216).
    { change 16777216 with (2 ^ 24). apply Z.pow_le_mono_r; lia. }
    destruct (Z.eq_dec m1 16777216) as [E1|N].
    + rewrite E1, round_finish_carry by lia.
      exists 8388608%positive, (e + 1). split; [reflexivity|].
      assert (d = 24).
      { destruct (Z.eq_dec d 24) as [Hy|Hn]; [exact Hy|].
        assert (2 ^ d <= 2 ^ 23) by (apply Z.pow_le_mono_r; lia).
        change (2 ^ 23) with 8388608 in *. lia. }
      cbn [digits2_pos Pos.succ]. lia.
    + destruct m1 as [|p1|p1]; try lia.
      assert (D1 : d <= Zpos (digits2_pos p1)) by (apply digits_ge; lia).
      assert (D2 : Zpos (digits2_pos p1) <= d + 1).
      { apply digits_le; [lia|]. rewrite Z.pow_add_r by lia.
        change (2 ^ 1) with 2. lia. }
      assert (D3 : Zpos (digits2_pos p1) <= 24) by (apply digits_le_24; lia).
      rewrite round_finish_noshift by (rewrite ?fexp32; lia).
      exists p1, e. split; [reflexivity | lia].
  - (* d - 24 bits shifted out *)
    assert (Hk : fexp prec emax (Zpos (digits2_pos P) + e) - e
                 = Zpos (Z.to_pos (d - 24)))
      by (fold d; rewrite fexp32, Z2Pos.id by lia; lia).
    destruct (binary_round_aux_shift_loc sx P e _ l Hk) as (m1 & Hr & E).
    rewrite E. rewrite Z2Pos.id in * by lia.
    replace (e + (d - 24)) with (d + e - 24) by lia.
    assert (Hp : 0 < 2 ^ (d - 24)) by (apply Z.pow_pos_nonneg; lia).
    assert (E1 : 2 ^ (d - 1) = 2 ^ (d - 24) * 8388608).
    { change 8388608 with (2 ^ 23). rewrite <- Z.pow_add_r by lia.
      f_equal. lia. }
    assert (Hq1 : 8388608 <= Zpos P / 2 ^ (d - 24))
      by (apply Z.div_le_lower_bound; lia).
    assert (Hq2 : Zpos P / 2 ^ (d - 24) < 16777216)
      by (apply Z.div_lt_upper_bound; lia).
    destruct (Z.eq_dec m1 16777216) as [E2|N].
    + rewrite E2, round_finish_carry by lia.
      exists 8388608%positive, (d + e - 24 + 1). split; [reflexivity|].
      cbn [digits2_pos Pos.succ]. lia.
    + destruct (digits_24 m1) as (p1 & -> & Hp1); [lia|].
      rewrite round_finish_canonical by (rewrite ?Hp1, ?fexp32; lia).
      exists p1, (d + e - 24). split; [reflexivity | lia].
Qed.

Lemma shiftl_bound (m : positive) (e M : Z) :
  Zpos (digits2_pos m) + e <= M -> 0 <= M ->
  0 <= Z.shiftl (Zpos m) e < 2 ^ M.
Proof.
  intros Hd HM. pose proof (digits2_pos_bounds m) as [_ Bu].
  set (d := Zpos (digits2_pos m)) in *.
  assert (Hd1 : 1 <= d) by (unfold d; lia).
  destruct (Z.le_gt_cases 0 e) as [He|He].
  - rewrite Z.shiftl_mul_pow2 by lia.
    assert (0 < 2 ^ e) by (apply Z.pow_pos_nonneg; lia).
    assert (2 ^ (d + e) <= 2 ^ M) by (apply Z.pow_le_mono_r; lia).
    rewrite Z.pow_add_r in * by lia. nia.
  - rewrite Z.shiftl_div_pow2 by lia.
    assert (0 < 2 ^ (- e)) by (apply Z.pow_pos_nonneg; lia).
    split; [apply Z.div_pos; lia|].
    apply Z.div_lt_upper_bound; [lia|].
    rewrite <- Z.pow_add_r by lia.
    assert (2 ^ d <= 2 ^ (- e + M)) by (apply Z.pow_le_mono_r; lia). lia.
Qed.

Lemma digits_mul (a b : positive) :
  Zpos (digits2_pos a) + Zpos (digits2_pos b) - 1
  <= Zpos (digits2_pos (a * b))
  <= Zpos (digits2_pos a) + Zpos (digits2_pos b).
Proof.
  pose proof (digits2_pos_bounds a) as [Al Au].
  pose proof (digits2_pos_bounds b) as [Bl Bu].
  set (da := Zpos (digits2_pos a)) in *.
  set (db := Zpos (digits2_pos b)) in *.
  assert (1 <= da) by (unfold da; lia).
  assert (1 <= db) by (unfold db; lia).
  assert (0 < 2 ^ (da - 1)) by (apply Z.pow_pos_nonneg; lia).
  assert (0 < 2 ^ (db - 1)) by (apply Z.pow_pos_nonneg; lia).
  split.
  - apply digits_ge.
    replace (da + db - 1 - 1) with ((da - 1) + (db - 1)) by lia.
    rewrite Z.pow_add_r by lia. rewrite Pos2Z.inj_mul. nia.
  - apply digits_le; [lia|].
    rewrite Z.pow_add_r by lia. rewrite Pos2Z.inj_mul. nia.
Qed.

(** an integer below [2 ^ b] in magnitude converts to a normal number of
    magnitude class at most [b] *)
Lemma of_Z_range (x b : Z) :
  0 < Z.abs x < 2 ^ b -> 0 <= b <= 24 ->
  exists m e, of_Z x = S754_finite (x <? 0) m e
    /\ Zpos (digits2_pos m) = 24 /\ - 23 <= e /\ 24 + e <= b.
Proof.
  intros Hx Hb.
  assert (H24 : 2 ^ b <= 16777216).
  { change 16777216 with (2 ^ 24). apply Z.pow_le_mono_r; lia. }
  assert (Hgen : forall (sx : bool) (p : positive), Zpos p < 2 ^ b ->
            exists m e, binary_round prec emax sx p 0 = S754_finite sx m e
              /\ Zpos (digits2_pos m) = 24 /\ - 23 <= e /\ 24 + e <= b).
  { intros sx p Hp.
    destruct (binary_round_normal sx p) as (m & e & E & Hd & He & Hm); [lia|].
    exists m, e. repeat split; try assumption; try lia.
    pose proof (digits2_pos_bounds m) as [Bl _]. rewrite Hd in Bl.
    change (2 ^ (24 - 1)) with 8388608 in Bl.
    destruct (Z.le_gt_cases (24 + e) b) as [L|G]; [exact L|].
    assert (2 ^ (- e) <= 2 ^ (23 - b)) by (apply Z.pow_le_mono_r; lia).
    assert (E23 : 2 ^ b * 2 ^ (23 - b) = 8388608).
    { rewrite <- Z.pow_add_r by lia. replace (b + (23 - b)) with 23 by lia.
      reflexivity. }
    assert (0 < 2 ^ (- e)) by (apply Z.pow_pos_nonneg; lia).
    assert (0 < 2 ^ (23 - b)) by (apply Z.pow_pos_nonneg; lia).
    nia. }
  destruct x as [|p|p]; [cbn in Hx; lia| |];
    unfold of_Z; cbn [binary_normalize]; apply Hgen; cbn in Hx; lia.
Qed.

Lemma SFdiv_core_STANDARDLOOP (m1 : positive) (e1 : Z) :
  Zpos (digits2_pos m1) = 24 -> - 23 <= e1 ->
  SFdiv_core_binary prec emax (Zpos m1) e1 14626816 (-12)
  = (Zpos m1 * 16777216 / 14626816, e1 - 12,
     new_location 14626816 ((Zpos m1 * 16777216) mod 14626816)).
Proof.
  intros Hd He. unfold SFdiv_core_binary. cbn [Zdigits2]. rewrite Hd.
  change (Zpos (digits2_pos 14626816)) with 24.
  replace (Z.min (fexp prec emax (24 + e1 - (24 + -12))) (e1 - -12))
    with (e1 - 12) by (rewrite fexp32; lia).
  replace (e1 - -12 - (e1 - 12)) with 24 by lia.
  rewrite Z.shiftl_mul_pow2 by lia. change (2 ^ 24) with 16777216.
  unfold Z.div, Z.modulo.
  destruct (Z.div_eucl (Zpos m1 * 16777216) 14626816) as [q r].
  reflexivity.
Qed.

(** the loop factor of a period below [2 ^ 23] counts *)
Lemma div_STANDARDLOOP_range (m1 : positive) (e1 : Z) :
  Zpos (digits2_pos m1) = 24 -> - 23 <= e1 <= - 1 ->
  exists mf ef,
    div (S754_finite false m1 e1) STANDARDLOOP = S754_finite false mf ef
    /\ e1 + 12 <= Zpos (digits2_pos mf) + ef <= e1 + 14.
Proof.
  intros Hd He.
  change STANDARDLOOP with (S754_finite false 14626816 (-12)).
  unfold div. cbn [SFdiv]. rewrite SFdiv_core_STANDARDLOOP by lia.
  cbn [xorb].
  pose proof (digits2_pos_bounds m1) as [Bl Bu]. rewrite Hd in Bl, Bu.
  change (2 ^ (24 - 1)) with 8388608 in Bl.
  change (2 ^ 24) with 16777216 in Bu.
  assert (Hq1 : 8388608 <= Zpos m1 * 16777216 / 14626816)
    by (apply Z.div_le_lower_bound; lia).
  assert (Hq2 : Zpos m1 * 16777216 / 14626816 < 33554432)
    by (apply Z.div_lt_upper_bound; lia).
  destruct (Zpos m1 * 16777216 / 14626816) as [|q|q] eqn:Eq; try lia.
  assert (D1 : 24 <= Zpos (digits2_pos q))
    by (apply digits_ge; change (2 ^ (24 - 1)) with 8388608; lia).
  assert (D2 : Zpos (digits2_pos q) <= 25)
    by (apply digits_le; [lia | change (2 ^ 25) with 33554432; lia]).
  destruct (binary_round_aux_range false q (e1 - 12)
              (new_location 14626816
                 ((Zpos m1 * 16777216) mod 14626816)))
    as (mf & ef & E & Hm); try lia.
  exists mf, ef. split; [exact E | lia].
Qed.

(** Below [2 ^ 23] timer counts per tick (2349 standard loop periods) the
    scaled value of an [int16_t] rate stays below [2 ^ 30] in magnitude, and
    its conversion to [int32_t] is defined. *)
Lemma loop_scale_bound (tg : Target) (period x : Z) :
  0 <= period < 8388608 -> - 32768 <= x <= 32767 ->
  - 1073741824 < loop_scale tg period x < 1073741824.
Proof.
  intros Hp Hx. unfold loop_scale.
  replace (uint32 period) with period
    by (unfold uint32; rewrite Z.mod_small; [reflexivity|];
        change (2 ^ 32) with 4294967296; lia).
  unfold to_int.
  destruct (Z.eq_dec period 0) as [->|Np].
  { change (div (of_Z 0) STANDARDLOOP) with (S754_zero false).
    rewrite mul_of_Z_zero by exact Hx. cbn. lia. }
  destruct (of_Z_range period 23) as (m1 & e1 & E1 & D1 & L1 & U1);
    [change (2 ^ 23) with 8388608; lia | lia |].
  replace (period <? 0) with false in E1 by (symmetry; apply Z.ltb_ge; lia).
  destruct (div_STANDARDLOOP_range m1 e1 D1) as (mf & ef & Ef & Hf); [lia|].
  rewrite E1, Ef.
  destruct (Z.eq_dec x 0) as [->|Nx].
  { cbn. lia. }
  destruct (of_Z_range x 16) as (mx & ex & Ex & Dx & Lx & Ux);
    [change (2 ^ 16) with 65536; lia | lia |].
  rewrite Ex. unfold mul. cbn [SFmul].
  pose proof (digits_mul mx mf) as Hdm. rewrite Dx in Hdm.
  assert (1 <= Zpos (digits2_pos mf)) by lia.
  destruct (binary_round_aux_range (xorb (x <? 0) false) (mx * mf)
              (ex + ef) loc_Exact) as (m' & e' & E & Hm); try lia.
  rewrite E. cbn [trunc].
  pose proof (shiftl_bound m' e' 30) as Hs.
  change (2 ^ 30) with 1073741824 in Hs.
  destruct (xorb (x <? 0) false);
    (rewrite fitsb32 by lia); lia.
Qed.

Lemma gyro_increment_bound (tg : Target) (cfg : CONFIG_STRUCT) (period : Z)
    (inp : Inputs) (s : State) (p : Profile) (a : Axis) :
  0 <= period < 8388608 ->
  - 1073741824 < gyro_increment tg cfg period inp s p a < 1073741824.
Proof.
  intros Hp. unfold gyro_increment.
  match goal with |- context [cint ?x] => pose proof (cint_range x) as Hc end.
  rewrite (int32_small (cint _)) by lia.
  apply loop_scale_bound; assumption.
Qed.

Lemma PID_Gyro_I_actual_range (cfg : CONFIG_STRUCT) (p : Profile) (a : Axis)
    (i : Z) :
  0 <= Raw_I_Limits cfg p (GYRO a) <= 2147483647 ->
  - 67108864 <= PID_Gyro_I_actual cfg p a i <= 67108863.
Proof.
  intros HL. unfold PID_Gyro_I_actual, gyro_I_product.
  pose proof (int32_range (i * I_gain cfg p (GYRO a))) as Hr.
  set (x := int32 (i * I_gain cfg p (GYRO a))) in *.
  assert (Hs : - 67108864 <= Z.shiftr x 5 <= 67108863).
  { rewrite Z.shiftr_div_pow2 by lia. change (2 ^ 5) with 32. split.
    - apply Z.div_le_lower_bound; lia.
    - assert (x / 32 < 67108864) by (apply Z.div_lt_upper_bound; lia). lia. }
  unfold limit_I. rewrite !int32_small by lia.
  destruct (Z.ltb_spec (Raw_I_Limits cfg p (GYRO a)) (Z.shiftr x 5)); [lia|].
  destruct (Z.ltb_spec (Z.shiftr x 5) (- Raw_I_Limits cfg p (GYRO a))); lia.
Qed.

Lemma I_gain_range (cfg : CONFIG_STRUCT) (p : Profile) (a : IAxis) :
  - 128 <= I_gain cfg p a <= 127.
Proof.
  unfold I_gain. destruct a as [[ | | ]|]; apply int8_range.
Qed.

Lemma P_gain_range (cfg : CONFIG_STRUCT) (p : Profile) (a : Axis) :
  - 128 <= P_gain cfg p a <= 127.
Proof. unfold P_gain. apply int8_range. Qed.

(** C5, as the code has it.  In a state whose gyro I-term obeys its clamp,
    with the anti-windup limit in 0..16777215, a non-negative [int32_t]
    output limit, and a tick period below 8388608 timer counts (2^23, some
    2349 standard loop periods): the accumulation
    [IntegralGyro[p][a] + P_temp] of lines 226-227, with the increment the
    tick itself computes, stays in the signed 32-bit range, so that [Sensor_PID]
    stores the clamp of the exact sum; the product
    [IntegralGyro[p][a] * I_gain[p][a]], the proportional sum, its
    multiplication by 3 and the final sum of P- and I-term stay in that
    range as well.  The product [gyroADC[a] * P_gain[p][a]] of
    lines 410 and 418 is formed in the 16-bit [int]; it stays in range for
    averaged rates of magnitude up to 255. *)
Theorem no_overflow_bounded_limits (tg : Target) (cfg : CONFIG_STRUCT)
    (period : Z) (inp : Inputs) (s : State) (p : Profile) (a : Axis)
    (g : Z) :
  0 <= Raw_I_Constrain cfg p (GYRO a) <= 16777215 ->
  0 <= Raw_I_Limits cfg p (GYRO a) <= 2147483647 ->
  0 <= period < 8388608 ->
  Z.abs (IntegralGyro s p a) <= Raw_I_Constrain cfg p (GYRO a) ->
  fits 32 (IntegralGyro s p a + gyro_increment tg cfg period inp s p a)
  /\ IntegralGyro (Sensor_PID tg cfg period inp s) p a
     = constrain_I (Raw_I_Constrain cfg p (GYRO a))
         (IntegralGyro s p a + gyro_increment tg cfg period inp s p a)
  /\ fits 32 (IntegralGyro s p a * I_gain cfg p (GYRO a))
  /\ fits 32 (gyro_bias cfg p a + cint (g * P_gain cfg p a))
  /\ fits 32 (int32 (gyro_bias cfg p a + cint (g * P_gain cfg p a)) * 3)
  /\ fits 32 (PID_gyro_P cfg p a g
              + PID_Gyro_I_actual cfg p a (IntegralGyro s p a))
  /\ (Z.abs g <= 255 -> fits 16 (g * P_gain cfg p a)).
Proof.
  intros HC HL Hp HI. rewrite !fits32_iff.
  pose proof (gyro_increment_bound tg cfg period inp s p a Hp) as Hinc.
  pose proof (I_gain_range cfg p (GYRO a)) as Hig.
  pose proof (P_gain_range cfg p a) as Hpg.
  pose proof (gyro_bias_range cfg p a) as Hb.
  pose proof (cint_range (g * P_gain cfg p a)) as Hc.
  pose proof (PID_gyro_P_range cfg p a g) as HP.
  pose proof (PID_Gyro_I_actual_range cfg p a (IntegralGyro s p a) HL) as HIa.
  apply Z.abs_le in HI.
  split; [lia|]. split.
  { rewrite Sensor_IntegralGyro, int32_small by lia. reflexivity. }
  split; [nia|]. split; [lia|].
  split; [rewrite int32_small by lia; lia|]. split; [lia|].
  intros Hg. apply Z.abs_le in Hg. unfold fits.
  change (2 ^ (16 - 1)) with 32768. nia.
Qed.

Lemma no_overflow_bounded_limits_witness :
  let cfg := sample_config (fc_roll 100 127 0) 0 0 16777215 80000 in
  let inp := sample_inputs 0 (of_Z 0) 1 in
  let s := Sensor_PID sample_target cfg 3571000 inp
             (step sample_target cfg init_state
                   (ReadGyros (roll_rate_sample 20000))) in
  (IntegralGyro s P1 ROLL = 16777215
   /\ gyro_increment sample_target cfg 3571000 inp s P1 ROLL = 20000000)
  /\ fits 32 (IntegralGyro s P1 ROLL
              + gyro_increment sample_target cfg 3571000 inp s P1 ROLL)
  /\ IntegralGyro (Sensor_PID sample_target cfg 3571000 inp s) P1 ROLL
     = constrain_I (Raw_I_Constrain cfg P1 (GYRO ROLL))
         (IntegralGyro s P1 ROLL
          + gyro_increment sample_target cfg 3571000 inp s P1 ROLL)
  /\ fits 32 (IntegralGyro s P1 ROLL * I_gain cfg P1 (GYRO ROLL))
  /\ fits 32 (gyro_bias cfg P1 ROLL + cint (200 * P_gain cfg P1 ROLL))
  /\ fits 32 (int32 (gyro_bias cfg P1 ROLL + cint (200 * P_gain cfg P1 ROLL))
              * 3)
  /\ fits 32 (PID_gyro_P cfg P1 ROLL 200
              + PID_Gyro_I_actual cfg P1 ROLL (IntegralGyro s P1 ROLL))
  /\ fits 16 (200 * P_gain cfg P1 ROLL).
Proof.
  cbv zeta. split; [split; vm_compute; reflexivity|].
  destruct (no_overflow_bounded_limits sample_target
              (sample_config (fc_roll 100 127 0) 0 0 16777215 80000)
              3571000 (sample_inputs 0 (of_Z 0) 1)
              (Sensor_PID sample_target
                 (sample_config (fc_roll 100 127 0) 0 0 16777215 80000)
                 3571000 (sample_inputs 0 (of_Z 0) 1)
                 (step sample_target
                    (sample_config (fc_roll 100 127 0) 0 0 16777215 80000)
                    init_state (ReadGyros (roll_rate_sample 20000))))
              P1 ROLL 200) as (H1 & H2 & H3 & H4 & H5 & H6 & H7).
  - cbn. lia.
  - cbn. lia.
  - lia.
  - vm_compute. intros H; discriminate H.
  - assert (H8 := H7 ltac:(lia)).
    exact (conj H1 (conj H2 (conj H3 (conj H4 (conj H5 (conj H6 H8)))))).
Defined.

(** C5 as stated fails: the clamp alone bounds neither the product nor the
    accumulation, and the 16-bit product is not covered by it at all.  With
    an anti-windup limit of 20000000 and an I-gain of 127, one tick at a
    roll rate of 20000 over 1000 standard loop periods brings the I-term to
    20000000, inside its limit, and the product 2540000000 leaves the
    signed 32-bit range.  With the limit at 16777215 and a tick of 65536
    standard loop periods at a roll rate of 32767, the I-term is 16777215
    after one tick, the next increment is 2147418112, and their sum leaves
    the range.  With a P-gain of 100, an averaged rate of 368 gives the
    product 36800, outside the 16-bit [int]. *)
Lemma clamp_does_not_prevent_overflow :
  let cfg := sample_config (fc_roll 0 127 0) 0 0 20000000 80000 in
  let s := run sample_target cfg
             [ReadGyros (roll_rate_sample 20000);
              Sampler 3571000 (sample_inputs 0 (of_Z 0) 1)] init_state in
  let cfg' := sample_config (fc_roll 100 127 0) 0 0 16777215 80000 in
  let inp := sample_inputs 0 (of_Z 0) 1 in
  let s' := run sample_target cfg'
              [ReadGyros (roll_rate_sample 32767); Sampler 234029056 inp]
              init_state in
  (clamp_inv cfg s
   /\ IntegralGyro s P1 ROLL = 20000000
   /\ I_gain cfg P1 (GYRO ROLL) = 127
   /\ ~ fits 32 (IntegralGyro s P1 ROLL * I_gain cfg P1 (GYRO ROLL)))
  /\ (clamp_inv cfg' s'
      /\ IntegralGyro s' P1 ROLL = 16777215
      /\ gyro_increment sample_target cfg' 234029056 inp s' P1 ROLL
         = 2147418112
      /\ ~ fits 32 (IntegralGyro s' P1 ROLL
                    + gyro_increment sample_target cfg' 234029056 inp s'
                        P1 ROLL))
  /\ (P_gain cfg' P1 ROLL = 100 /\ ~ fits 16 (368 * P_gain cfg' P1 ROLL)).
Proof.
  cbv zeta.
  split; [split; [|split; [|split]] | split; [split; [|split; [|split]]|]].
  - apply clamp_inv_run.
    + intros p a. cbn. lia.
    + apply clamp_inv_init. intros p a. cbn. lia.
  - vm_compute. reflexivity.
  - reflexivity.
  - rewrite fits32_iff. vm_compute. intros [_ H]. apply H. reflexivity.
  - apply clamp_inv_run.
    + intros p a. cbn. lia.
    + apply clamp_inv_init. intros p a. cbn. lia.
  - vm_compute. reflexivity.
  - vm_compute. reflexivity.
  - rewrite fits32_iff. vm_compute. intros [_ H]. apply H. reflexivity.
  - split; [reflexivity|]. unfold fits. vm_compute.
    intros [_ H]. discriminate H.
Qed.


(** ** Who writes what *)

(** X14. The published outputs change only in [Calculate_PID]: a sequence of
    calls without it leaves [PID_Gyros] and [PID_ACCs] as they were. *)
Theorem outputs_written_by_Calculate_PID_only (tg : Target)
    (cfg : CONFIG_STRUCT) (calls : list Call) (s : State) (p : Profile)
    (a : Axis) :
  forallb (fun c => negb (is_Combiner c)) calls = true ->
  PID_Gyros (run tg cfg calls s) p a = PID_Gyros s p a
  /\ PID_ACCs (run tg cfg calls s) p a = PID_ACCs s p a.
Proof.
  intros Hall.
  apply (run_invariant_except tg cfg
           (fun s' => PID_Gyros s' p a = PID_Gyros s p a
                      /\ PID_ACCs s' p a = PID_ACCs s p a) is_Combiner);
    [|exact Hall|split; reflexivity].
  intros s0 c Hc [H1 H2]. destruct c as [period inp | inp | g];
    try discriminate Hc; cbn [step].
  - destruct (Sensor_outputs tg cfg period inp s0) as [-> ->]. auto.
  - destruct (ReadGyros_frame tg cfg g s0) as (E1 & E2 & _).
    cbn [step] in E1, E2. rewrite E1, E2. auto.
Qed.

Lemma outputs_written_by_Calculate_PID_only_witness :
  let cfg := sample_config (fc_roll 10 0 0) 0 0 1000 500 in
  let inp := sample_inputs 0 (of_Z 0) 1 in
  let s := run sample_target cfg
             [ReadGyros (roll_rate_sample 100); Sampler 3571 inp;
              Combiner inp] init_state in
  let calls := [ReadGyros (roll_rate_sample (- 900)); Sampler 3571 inp;
                Sampler 9000 inp] in
  PID_Gyros (run sample_target cfg calls s) P1 ROLL = PID_Gyros s P1 ROLL
  /\ PID_ACCs (run sample_target cfg calls s) P1 ROLL = PID_ACCs s P1 ROLL.
Proof.
  cbv zeta. apply outputs_written_by_Calculate_PID_only. reflexivity.
Defined.

(** X15. [Calculate_PID] never touches the integrators or the filter
    memories: a sequence of calls without [Sensor_PID] leaves
    [IntegralGyro], [IntegralAccVertf], [gyroSmooth] and the noise estimate
    as they were. *)
Theorem integrators_written_by_Sensor_PID_only (tg : Target)
    (cfg : CONFIG_STRUCT) (calls : list Call) (s : State) (p : Profile)
    (a : Axis) :
  forallb (fun c => negb (is_Sampler c)) calls = true ->
  let s' := run tg cfg calls s in
  IntegralGyro s' p a = IntegralGyro s p a
  /\ IntegralAccVertf s' p = IntegralAccVertf s p
  /\ gyroSmooth s' a = gyroSmooth s a
  /\ GyroAvgNoise s' = GyroAvgNoise s.
Proof.
  intros Hall. cbv zeta.
  apply (run_invariant_except tg cfg
           (fun s' => IntegralGyro s' p a = IntegralGyro s p a
                      /\ IntegralAccVertf s' p = IntegralAccVertf s p
                      /\ gyroSmooth s' a = gyroSmooth s a
                      /\ GyroAvgNoise s' = GyroAvgNoise s) is_Sampler);
    [|exact Hall|repeat split].
  intros s0 c Hc (H1 & H2 & H3 & H4). destruct c as [period inp | inp | g];
    try discriminate Hc; cbn [step].
  - destruct (Calc_frame tg cfg inp s0) as (E1 & E2 & E3 & _).
    rewrite Calc_IntegralGyro, E1, E2, E3. auto.
  - destruct (ReadGyros_frame tg cfg g s0)
      as (_ & _ & E1 & E2 & E3 & _ & E4 & _).
    cbn [step] in E1, E2, E3, E4. rewrite E1, E2, E3, E4. auto.
Qed.

Lemma integrators_written_by_Sensor_PID_only_witness :
  let cfg := sample_config (fc_roll 10 5 0) 0 2 1000 500 in
  let inp := sample_inputs 0 (of_Z 30) 1 in
  let s := run sample_target cfg
             [ReadGyros (roll_rate_sample 100); Sampler 3571 inp]
             init_state in
  let s' := run sample_target cfg
              [Combiner inp; ReadGyros (roll_rate_sample 7); Combiner inp]
              s in
  IntegralGyro s' P1 ROLL = IntegralGyro s P1 ROLL
  /\ IntegralAccVertf s' P1 = IntegralAccVertf s P1
  /\ gyroSmooth s' ROLL = gyroSmooth s ROLL
  /\ GyroAvgNoise s' = GyroAvgNoise s.
Proof.
  cbv zeta. apply integrators_written_by_Sensor_PID_only. reflexivity.
Defined.

(** ** The noise estimate *)

Section NoiseState.

Variable tg : Target.
Variable cfg : CONFIG_STRUCT.

Lemma Sensor_noise_state (period : Z) (inp : Inputs) (s : State) :
  let s' := Sensor_PID tg cfg period inp s in
  let n := Sensor_noise tg cfg inp s in
  GyroAvgNoise s' = GyroAvgNoise n /\ HPF_V s' = HPF_V n
  /\ HPF_T s' = HPF_T n /\ HPF_I s' = HPF_I n /\ fsample s' = fsample n.
Proof. cbv zeta. repeat split; project; reflexivity. Qed.

Lemma Sensor_noise_clamped (inp : Inputs) (s : State) :
  ltb (of_Z 999) (GyroAvgNoise s) = false ->
  ltb (of_Z 999) (GyroAvgNoise (Sensor_noise tg cfg inp s)) = false.
Proof.
  intros Hs. unfold Sensor_noise.
  destruct (Vibration cfg =? ON tg); [|exact Hs].
  cbn [GyroAvgNoise set_noise].
  match goal with |- context [if ltb ?a ?b then _ else _] =>
    destruct (ltb a b) eqn:E end.
  - reflexivity.
  - exact E.
Qed.

Lemma Sensor_noise_off (inp : Inputs) (s : State) :
  Vibration cfg <> ON tg -> Sensor_noise tg cfg inp s = s.
Proof.
  intros Hoff. unfold Sensor_noise.
  destruct (Z.eqb_spec (Vibration cfg) (ON tg)); [contradiction | reflexivity].
Qed.

End NoiseState.

(** X16. The noise estimate never exceeds 999: in every reachable state,
    whether vibration display is on or off, [GyroAvgNoise > 999.0f] is
    false. *)
Theorem noise_never_above_999 (tg : Target) (cfg : CONFIG_STRUCT)
    (calls : list Call) :
  ltb (of_Z 999) (GyroAvgNoise (run tg cfg calls init_state)) = false.
Proof.
  apply (run_invariant tg cfg
           (fun s => ltb (of_Z 999) (GyroAvgNoise s) = false)).
  - intros s c Hs. destruct c as [period inp | inp | g]; cbn [step].
    + destruct (Sensor_noise_state tg cfg period inp s) as [-> _].
      apply Sensor_noise_clamped, Hs.
    + destruct (Calc_frame tg cfg inp s) as (_ & _ & -> & _). exact Hs.
    + exact Hs.
  - reflexivity.
Qed.

(** X17. With vibration display not [ON] the noise estimator is frozen: no
    sequence of calls changes [GyroAvgNoise], the three filter variables
    [HPF_V], [HPF_T], [HPF_I] or [fsample]. *)
Theorem noise_frozen_when_off (tg : Target) (cfg : CONFIG_STRUCT)
    (calls : list Call) (s : State) :
  Vibration cfg <> ON tg ->
  let s' := run tg cfg calls s in
  GyroAvgNoise s' = GyroAvgNoise s /\ HPF_V s' = HPF_V s
  /\ HPF_T s' = HPF_T s /\ HPF_I s' = HPF_I s /\ fsample s' = fsample s.
Proof.
  intros Hoff. cbv zeta.
  apply (run_invariant tg cfg
           (fun s' => GyroAvgNoise s' = GyroAvgNoise s /\ HPF_V s' = HPF_V s
                      /\ HPF_T s' = HPF_T s /\ HPF_I s' = HPF_I s
                      /\ fsample s' = fsample s));
    [|repeat split].
  intros s0 c (H1 & H2 & H3 & H4 & H5).
  destruct c as [period inp | inp | g]; cbn [step].
  - destruct (Sensor_noise_state tg cfg period inp s0)
      as (-> & -> & -> & -> & ->).
    rewrite Sensor_noise_off by exact Hoff. auto.
  - destruct (Calc_frame tg cfg inp s0) as (_ & _ & -> & -> & -> & -> & ->).
    auto.
  - auto.
Qed.

Lemma noise_frozen_when_off_witness :
  let cfg := sample_config fc_zero 0 0 1000 0 in
  let on := sample_config fc_zero (ON sample_target) 0 1000 0 in
  let s := run sample_target on
             [Sampler 3571 (sample_inputs 40 (of_Z 0) 1);
              Sampler 3571 (sample_inputs (- 90) (of_Z 0) 1)] init_state in
  let s' := run sample_target cfg
              [Sampler 3571 (sample_inputs 500 (of_Z 0) 1);
               Combiner (sample_inputs 0 (of_Z 0) 1)] s in
  GyroAvgNoise s' = GyroAvgNoise s /\ HPF_V s' = HPF_V s
  /\ HPF_T s' = HPF_T s /\ HPF_I s' = HPF_I s /\ fsample s' = fsample s.
Proof.
  cbv zeta. apply noise_frozen_when_off. cbn. discriminate.
Defined.

(** ** Calling [Calculate_PID] twice *)

(** X18. The averaging window is used up by one call: when
    [Calculate_PID] runs again before any tick (with a non-zero
    [LoopCount]), it finds an empty accumulator, leaves 0 in [gyroADC] and
    publishes outputs whose proportional part is the yaw trim bias alone. *)
Theorem second_Calculate_PID_sees_zero (tg : Target) (cfg : CONFIG_STRUCT)
    (inp inp' : Inputs) (s : State) (p : Profile) (a : Axis) :
  1 <= LoopCount inp' ->
  let s' := Calculate_PID tg cfg inp' (Calculate_PID tg cfg inp s) in
  gyroADC s' a = 0
  /\ PID_Gyros s' p a = PID_gyro_out cfg p a 0 (IntegralGyro s p a).
Proof.
  intros HL. cbv zeta.
  assert (E : int16 (cdiv tg (PID_AvgGyro (Calculate_PID tg cfg inp s) a)
                          (LoopCount inp')) = 0).
  { rewrite Calc_PID_AvgGyro, cdiv_quot by lia.
    rewrite Z.quot_0_l by lia. reflexivity. }
  split.
  - rewrite Calc_gyroADC. exact E.
  - rewrite Calc_PID_Gyros, E, Calc_IntegralGyro. reflexivity.
Qed.

Lemma second_Calculate_PID_sees_zero_witness :
  let cfg := sample_config (fc_roll 10 0 0) 0 0 1000 500 in
  let inp := sample_inputs 0 (of_Z 0) 1 in
  let s := run sample_target cfg
             [ReadGyros (roll_rate_sample 100); Sampler 3571 inp]
             init_state in
  let s' := Calculate_PID sample_target cfg inp
              (Calculate_PID sample_target cfg inp s) in
  gyroADC s' ROLL = 0
  /\ PID_Gyros s' P1 ROLL
     = PID_gyro_out cfg P1 ROLL 0 (IntegralGyro s P1 ROLL).
Proof.
  cbv zeta. apply second_Calculate_PID_sees_zero. cbn. lia.
Defined.

